(** * Verification of the data-mesh synchronisation core

    Shallow embedding of [PatternGenerator] (src/core/pattern.ts),
    [MeshNode] (core/mesh-node.ts), [MeshNetwork] (core/mesh-network.ts)
    and [MeshObserver] (core/mesh-observer.ts).

    Numbers.  A JavaScript number is modelled by [num]: an integer value
    [Num z] or [NaN].  The code only ever combines integers (steps, seeds,
    digits), so non-integral doubles are not modelled; for magnitudes
    beyond 2^53 the model keeps the exact integer.

    Where the model and the engine part.  The model computes [step - 1],
    [globalStep++] and [previousValue * seed] exactly and has no stack
    limit.  A JavaScript engine rounds these results to doubles beyond
    2^53 (so [computeValue] can loop on [step - 1 === step] there), prints
    a rounded product with its shortest round-trip digits, and throws a
    [RangeError] once the recursion of [computeValue] is deeper than its
    stack allows.  Every theorem below about values or returns is
    therefore stated for calls that return, and, where rounding could
    change the result, for steps and products within 2^53, where the
    model and the engine agree. *)

From Stdlib Require Import ZArith Lia List String Ascii Bool QArith.
From Equations Require Import Equations.
From stdpp Require Import base gmap list strings.
Import ListNotations.
Open Scope Z_scope.

(** ** JavaScript numbers *)

Inductive num : Type :=
| Num (z : Z)
| NaN.

Definition num_eq_dec (a b : num) : {a = b} + {a <> b}.
Proof. decide equality; apply Z.eq_dec. Defined.

(** [a + b] *)
Definition js_add (a b : num) : num :=
  match a, b with
  | Num x, Num y => Num (x + y)
  | _, _ => NaN
  end.

(** [a * b], exact: an engine rounds a product beyond 2^53 to a double,
    which the theorems avoid by their hypotheses. *)
Definition js_mul (a b : num) : num :=
  match a, b with
  | Num x, Num y => Num (x * y)
  | _, _ => NaN
  end.

(** [a > b]: false as soon as one side is NaN. *)
Definition js_gt (a b : num) : bool :=
  match a, b with
  | Num x, Num y => y <? x
  | _, _ => false
  end.

(** [a === b]: NaN is equal to nothing, itself included. *)
Definition js_strict_eq (a b : num) : bool :=
  match a, b with
  | Num x, Num y => x =? y
  | _, _ => false
  end.

(** ** [String(n)] for integer-valued numbers *)

Definition digit_char (d : Z) : ascii :=
  ascii_of_nat (48 + Z.to_nat d).

(** Decimal digits of a non-negative integer, most significant first.
    [fuel] bounds the number of divisions; [decimal_digits] gives one
    per bit, more than enough. *)
Fixpoint digits_aux (fuel : nat) (n : Z) (acc : list Z) : list Z :=
  match fuel with
  | O => n :: acc
  | S f => if n <? 10 then n :: acc else digits_aux f (n / 10) (n mod 10 :: acc)
  end.

Definition decimal_digits (n : Z) : list Z :=
  digits_aux (S (Z.to_nat (Z.log2 n))) n [].

Definition decimal_string (n : Z) : list ascii :=
  map digit_char (decimal_digits n).

Fixpoint strip_trailing_zeros_rev (ds : list Z) : list Z :=
  match ds with
  | 0 :: ds' => strip_trailing_zeros_rev ds'
  | _ => ds
  end.

(** Exponential notation, used by [Number.prototype.toString] from
    10^21 on: [d.ddde+x]. *)
Definition exponent_string (n : Z) : list ascii :=
  let ds := decimal_digits n in
  let mant := rev (strip_trailing_zeros_rev (rev ds)) in
  match mant with
  | [] => decimal_string n
  | d :: rest =>
      digit_char d
        :: app (match rest with [] => [] | _ => "."%char :: map digit_char rest end)
             (app ["e"%char; "+"%char]
                  (decimal_string (Z.of_nat (List.length ds) - 1)))
  end.

Definition js_String_nonneg (n : Z) : list ascii :=
  if n <? 10 ^ 21 then decimal_string n else exponent_string n.

Definition js_String_int (n : Z) : list ascii :=
  if n <? 0 then "-"%char :: js_String_nonneg (- n) else js_String_nonneg n.

(** [String(x).split('')]. *)
Definition js_String (x : num) : list ascii :=
  match x with
  | Num n => js_String_int n
  | NaN => list_ascii_of_string "NaN"
  end.

(** [parseInt(c)] on a one-character string. *)
Definition parseInt_char (c : ascii) : num :=
  let k := Z.of_nat (nat_of_ascii c) in
  if (48 <=? k) && (k <=? 57) then Num (k - 48) else NaN.

(** [chars.reduce((acc, digit) => acc + parseInt(digit), 0)] *)
Definition digit_sum (chars : list ascii) : num :=
  fold_left (fun acc c => js_add acc (parseInt_char c)) chars (Num 0).

Definition num_measure (x : num) : nat :=
  match x with Num n => Z.to_nat n | NaN => O end.

(** *** Digit sums of decimal notation

    These facts are needed before [collapseDigits] can be defined: its
    recursive call is on the digit sum, which must be smaller. *)

Definition sum_list (l : list Z) : Z := fold_right Z.add 0 l.

Lemma digits_aux_sum_le (f : nat) : forall (n : Z) (acc : list Z),
  0 <= n -> sum_list (digits_aux f n acc) <= n + sum_list acc.
Proof.
  induction f as [|f IH]; intros n acc Hn; simpl.
  - lia.
  - destruct (n <? 10) eqn:E; simpl; [lia|].
    apply Z.ltb_ge in E.
    etransitivity; [apply IH; apply Z.div_pos; lia|]. simpl.
    pose proof (Z.div_mod n 10) as Hd.
    assert (0 <= n mod 10) by (apply Z.mod_pos_bound; lia).
    assert (0 <= n / 10) by (apply Z.div_pos; lia).
    lia.
Qed.

Lemma digits_aux_sum_lt (f : nat) (n : Z) :
  10 <= n -> sum_list (digits_aux (S f) n []) < n.
Proof.
  intros Hn. simpl. destruct (n <? 10) eqn:E; [apply Z.ltb_lt in E; lia|].
  eapply Z.le_lt_trans; [apply digits_aux_sum_le; apply Z.div_pos; lia|]. simpl.
  pose proof (Z.div_mod n 10) as Hd.
  pose proof (Z.mod_pos_bound n 10).
  assert (1 <= n / 10) by (apply Z.div_le_lower_bound; lia).
  lia.
Qed.

Lemma digits_aux_small (f : nat) (n : Z) :
  0 <= n < 10 -> digits_aux (S f) n [] = [n].
Proof. intros H. simpl. destruct (n <? 10) eqn:E; [reflexivity|]. apply Z.ltb_ge in E; lia. Qed.

Lemma digits_aux_mod9 (f : nat) : forall (n : Z) (acc : list Z),
  0 <= n -> sum_list (digits_aux f n acc) mod 9 = (n + sum_list acc) mod 9.
Proof.
  induction f as [|f IH]; intros n acc Hn; simpl; [reflexivity|].
  destruct (n <? 10); [reflexivity|].
  rewrite IH by (apply Z.div_pos; lia). simpl.
  pose proof (Z.div_mod n 10 ltac:(lia)) as Hd.
  replace (n + sum_list acc) with (n / 10 + (n mod 10 + sum_list acc) + (n / 10) * 9) by lia.
  rewrite Z.mod_add by lia. reflexivity.
Qed.

Lemma digits_aux_pos (f : nat) : forall (n : Z) (acc : list Z),
  1 <= n -> 0 <= sum_list acc -> 1 <= sum_list (digits_aux f n acc).
Proof.
  induction f as [|f IH]; intros n acc Hn Ha; simpl; [lia|].
  destruct (n <? 10) eqn:E; simpl; [lia|].
  apply Z.ltb_ge in E. apply IH.
  - apply Z.div_le_lower_bound; lia.
  - simpl. assert (0 <= n mod 10) by (apply Z.mod_pos_bound; lia). lia.
Qed.

Definition is_digit (d : Z) : Prop := 0 <= d <= 9.

Lemma digits_aux_digits (f : nat) : forall (n : Z) (acc : list Z),
  0 <= n < 10 ^ Z.of_nat f -> Forall is_digit acc ->
  Forall is_digit (digits_aux f n acc).
Proof.
  induction f as [|f IH]; intros n acc Hn Ha; simpl.
  - constructor; [|exact Ha]. simpl in Hn. unfold is_digit. lia.
  - destruct (n <? 10) eqn:E.
    + apply Z.ltb_lt in E. constructor; [unfold is_digit; lia|exact Ha].
    + apply IH.
      * split; [apply Z.div_pos; lia|].
        apply Z.div_lt_upper_bound; [lia|].
        rewrite Nat2Z.inj_succ, Z.pow_succ_r in Hn by lia. lia.
      * constructor; [|exact Ha]. unfold is_digit.
        pose proof (Z.mod_pos_bound n 10). lia.
Qed.

Lemma decimal_digits_digits (n : Z) :
  0 <= n -> Forall is_digit (decimal_digits n).
Proof.
  intros Hn. unfold decimal_digits. apply digits_aux_digits; [|constructor].
  split; [exact Hn|].
  destruct (Z.eq_dec n 0) as [->|Hn0]; [simpl; lia|].
  pose proof (Z.log2_spec n ltac:(lia)) as [_ Hlt].
  rewrite Nat2Z.inj_succ, Z2Nat.id by (apply Z.log2_nonneg).
  eapply Z.lt_le_trans; [exact Hlt|].
  apply Z.pow_le_mono_l. split; [lia|lia].
Qed.

Lemma parseInt_digit_char (d : Z) :
  is_digit d -> parseInt_char (digit_char d) = Num d.
Proof.
  unfold is_digit. intros Hd.
  assert (d = 0 \/ d = 1 \/ d = 2 \/ d = 3 \/ d = 4 \/ d = 5 \/ d = 6
          \/ d = 7 \/ d = 8 \/ d = 9) as Hc by lia.
  repeat destruct Hc as [->|Hc]; try reflexivity; subst; reflexivity.
Qed.

Lemma fold_digits (ds : list Z) : forall (a : Z),
  Forall is_digit ds ->
  fold_left (fun acc c => js_add acc (parseInt_char c)) (map digit_char ds) (Num a)
  = Num (a + sum_list ds).
Proof.
  induction ds as [|d ds IH]; intros a Hds; cbn [fold_left map sum_list fold_right].
  - f_equal; lia.
  - inversion Hds; subst.
    rewrite parseInt_digit_char by assumption. cbn [js_add].
    rewrite IH by assumption. f_equal. unfold sum_list. lia.
Qed.

Lemma fold_NaN (l : list ascii) :
  fold_left (fun acc c => js_add acc (parseInt_char c)) l NaN = NaN.
Proof. induction l; simpl; auto. Qed.

Lemma fold_non_digit (l : list ascii) : forall (c : ascii) (a : num),
  In c l -> parseInt_char c = NaN ->
  fold_left (fun acc c => js_add acc (parseInt_char c)) l a = NaN.
Proof.
  induction l as [|c' l IH]; intros c a Hin Hc; simpl in *; [contradiction|].
  destruct Hin as [->|Hin].
  - rewrite Hc. destruct a; simpl; apply fold_NaN.
  - eapply IH; eauto.
Qed.

Lemma digit_sum_decimal (n : Z) :
  0 <= n -> digit_sum (decimal_string n) = Num (sum_list (decimal_digits n)).
Proof.
  intros Hn. unfold digit_sum, decimal_string.
  rewrite fold_digits by (apply decimal_digits_digits; exact Hn). reflexivity.
Qed.

Lemma digit_sum_String_nonneg (n : Z) :
  0 <= n ->
  digit_sum (js_String_nonneg n) = NaN \/
  digit_sum (js_String_nonneg n) = Num (sum_list (decimal_digits n)).
Proof.
  intros Hn. unfold js_String_nonneg.
  destruct (n <? 10 ^ 21); [right; apply digit_sum_decimal; exact Hn|].
  unfold exponent_string.
  destruct (rev (strip_trailing_zeros_rev (rev (decimal_digits n)))) as [|d rest].
  - right. apply digit_sum_decimal; exact Hn.
  - left. unfold digit_sum. eapply (fold_non_digit _ "e"%char); [|reflexivity].
    right. apply in_or_app. right. left. reflexivity.
Qed.

Lemma digit_sum_String (x : num) (s : Z) :
  digit_sum (js_String x) = Num s ->
  exists n, x = Num n /\ 0 <= n /\ s = sum_list (decimal_digits n).
Proof.
  destruct x as [n|]; simpl; [|discriminate].
  unfold js_String_int. destruct (n <? 0) eqn:E.
  - unfold digit_sum. rewrite (fold_non_digit _ "-"%char); [discriminate|left; reflexivity|reflexivity].
  - apply Z.ltb_ge in E. intros H. exists n. split; [reflexivity|]. split; [exact E|].
    destruct (digit_sum_String_nonneg n E) as [H'|H']; rewrite H' in H; congruence.
Qed.

Lemma collapse_decreases (x : num) :
  js_gt (digit_sum (js_String x)) (Num 9) = true ->
  (num_measure (digit_sum (js_String x)) < num_measure x)%nat.
Proof.
  destruct (digit_sum (js_String x)) as [s|] eqn:Hs; simpl; [|discriminate].
  intros Hgt. apply Z.ltb_lt in Hgt.
  destruct (digit_sum_String x s Hs) as (n & -> & Hn & ->). simpl.
  destruct (Z_lt_le_dec n 10) as [Hlt|Hge].
  - unfold decimal_digits in Hgt. rewrite digits_aux_small in Hgt by lia. simpl in Hgt. lia.
  - pose proof (digits_aux_sum_lt (Z.to_nat (Z.log2 n)) n Hge).
    unfold decimal_digits in *. apply Z2Nat.inj_lt; [|lia|lia].
    apply (Z.le_trans _ 1); [lia|]. apply digits_aux_pos; simpl; lia.
Qed.

(** ** PatternGenerator.collapseDigits

<<
  private collapseDigits(num: number): number {
    const sum = String(num)
      .split('')
      .reduce((acc, digit) => acc + parseInt(digit), 0);
    return sum > 9 ? this.collapseDigits(sum) : sum;
  }
>> *)
Equations? collapseDigits (x : num) : num by wf (num_measure x) lt :=
  collapseDigits x with Equations.Prop.Logic.inspect (js_gt (digit_sum (js_String x)) (Num 9)) := {
    | exist _ true H => collapseDigits (digit_sum (js_String x));
    | exist _ false _ => digit_sum (js_String x) }.
Proof. apply collapse_decreases; exact H. Qed.


(** The defining equation of [collapseDigits], in the shape of the source. *)
Lemma collapseDigits_eq (x : num) :
  collapseDigits x =
  (let sum := digit_sum (js_String x) in
   if js_gt sum (Num 9) then collapseDigits sum else sum).
Proof.
  rewrite collapseDigits_equation_1.
  destruct (Equations.Prop.Logic.inspect _) as [[|] H]; simpl; rewrite H; reflexivity.
Qed.

(** The closed form the digit collapse is compared with. *)
Definition digital_root (n : Z) : Z := if n =? 0 then 0 else 1 + (n - 1) mod 9.

Lemma sum_list_digits_nonneg (ds : list Z) : Forall is_digit ds -> 0 <= sum_list ds.
Proof.
  unfold sum_list. induction 1 as [|d ds Hd _ IH]; simpl; [lia|]. unfold is_digit in Hd. lia.
Qed.

Lemma digit_sum_small (n : Z) :
  0 <= n < 10 ^ 21 -> digit_sum (js_String (Num n)) = Num (sum_list (decimal_digits n)).
Proof.
  intros Hn. simpl. unfold js_String_int, js_String_nonneg.
  destruct (n <? 0) eqn:E1; [apply Z.ltb_lt in E1; lia|].
  destruct (n <? 10 ^ 21) eqn:E2; [|apply Z.ltb_ge in E2; lia].
  apply digit_sum_decimal; lia.
Qed.

Lemma digital_root_mod9 (s n : Z) :
  1 <= s -> 1 <= n -> s mod 9 = n mod 9 -> digital_root s = digital_root n.
Proof.
  intros Hs Hn Hm. unfold digital_root.
  destruct (s =? 0) eqn:E1; [apply Z.eqb_eq in E1; lia|].
  destruct (n =? 0) eqn:E2; [apply Z.eqb_eq in E2; lia|].
  f_equal. rewrite (Zminus_mod s 1 9), (Zminus_mod n 1 9), Hm. reflexivity.
Qed.

Lemma collapseDigits_digital_root (n : Z) :
  0 <= n < 10 ^ 21 -> collapseDigits (Num n) = Num (digital_root n).
Proof.
  intros [Hn0 Hn1]. assert (H0 := Hn0). revert Hn0 Hn1. pattern n.
  apply Z_lt_induction; [|exact H0]. clear n H0. intros n IH Hn0 Hn1.
  rewrite collapseDigits_eq. cbv zeta.
  rewrite digit_sum_small by lia.
  set (s := sum_list (decimal_digits n)).
  assert (Hs0 : 0 <= s) by (apply sum_list_digits_nonneg, decimal_digits_digits; lia).
  assert (Hmod : s mod 9 = n mod 9).
  { unfold s, decimal_digits. rewrite digits_aux_mod9 by lia. simpl. f_equal. lia. }
  assert (Hsmall : n < 10 -> s = n).
  { intros Hlt. unfold s, decimal_digits. rewrite digits_aux_small by lia. simpl. lia. }
  assert (Hpos : 1 <= n -> 1 <= s).
  { intros H1. unfold s, decimal_digits. apply digits_aux_pos; simpl; lia. }
  assert (Hlt : 10 <= n -> s < n).
  { intros H10. unfold s, decimal_digits. apply digits_aux_sum_lt; lia. }
  cbn [js_gt]. destruct (9 <? s) eqn:E.
  - apply Z.ltb_lt in E.
    assert (10 <= n) by (destruct (Z_lt_le_dec n 10); [specialize (Hsmall l); lia|lia]).
    rewrite IH by lia. f_equal. apply digital_root_mod9; lia.
  - apply Z.ltb_ge in E. f_equal. unfold digital_root.
    destruct (n =? 0) eqn:E0.
    + apply Z.eqb_eq in E0. subst n. apply Hsmall. lia.
    + apply Z.eqb_neq in E0.
      rewrite (Zminus_mod n 1 9), <- Hmod, <- Zminus_mod.
      rewrite Z.mod_small; lia.
Qed.

(** ** PatternGenerator

<<
  constructor(seed: number, phaseResetInterval: number) {
    this.seed = seed;
    this.phaseResetInterval = phaseResetInterval;
    this.cache = new Map();
  }
>>
    The constructor stores its arguments as they are: no check. *)
Record PatternGenerator : Type := mkPatternGenerator {
  seed : Z;
  phaseResetInterval : Z;
  cache : gmap Z num
}.

Definition new_PatternGenerator (seed phaseResetInterval : Z) : PatternGenerator :=
  {| seed := seed; phaseResetInterval := phaseResetInterval; cache := ∅ |}.

(** [step % this.phaseResetInterval === 0]: with a zero divisor [%] gives
    NaN, and NaN is not [=== 0]; otherwise [%] truncates like [Z.rem]. *)
Definition is_phase_reset (step phaseResetInterval : Z) : bool :=
  if phaseResetInterval =? 0 then false else Z.rem step phaseResetInterval =? 0.

(** The body of [computeValue], on the seed, the interval and the cache.
    [None] is the [RangeError] of a recursion that never reaches a cached
    or reset step.  [fuel] bounds the depth of the recursion: from the
    caller it is |phaseResetInterval|, which is never exhausted for a
    non-zero interval (the remainder reaches 0 within that many steps
    down), and with a zero interval the source recurses for ever.  The
    engine's own stack limit is not modelled, nor the rounding of
    [step - 1] beyond 2^53: a model run that returns is the engine's run
    when the engine's stack suffices and the steps met stay within 2^53.
<<
  computeValue(step: number): number {
    if (this.cache.has(step)) {
      return this.cache.get(step)!;
    }
    if (step % this.phaseResetInterval === 0) {
      const value = this.seed;
      this.cache.set(step, value);
      return value;
    }
    const previousStep = step - 1;
    const previousValue = this.computeValue(previousStep);
    const value = this.collapseDigits(previousValue * this.seed);
    this.cache.set(step, value);
    return value;
  }
>> *)
Fixpoint computeValue_go (fuel : nat) (seed phaseResetInterval : Z)
    (cache : gmap Z num) (step : Z) : option (num * gmap Z num) :=
  match cache !! step with
  | Some v => Some (v, cache)
  | None =>
      if is_phase_reset step phaseResetInterval then
        let value := Num seed in Some (value, <[step := value]> cache)
      else
        match fuel with
        | O => None
        | S fuel' =>
            let previousStep := step - 1 in
            match computeValue_go fuel' seed phaseResetInterval cache previousStep with
            | None => None
            | Some (previousValue, cache') =>
                let value := collapseDigits (js_mul previousValue (Num seed)) in
                Some (value, <[step := value]> cache')
            end
        end
  end.

Definition computeValue (g : PatternGenerator) (step : Z) : option (num * PatternGenerator) :=
  match computeValue_go (Z.to_nat (Z.abs (phaseResetInterval g))) (seed g)
          (phaseResetInterval g) (cache g) step with
  | None => None
  | Some (v, c) => Some (v, {| seed := seed g; phaseResetInterval := phaseResetInterval g; cache := c |})
  end.

Definition clearCache (g : PatternGenerator) : PatternGenerator :=
  {| seed := seed g; phaseResetInterval := phaseResetInterval g; cache := ∅ |}.

(** Generators as they can arise: constructed, then used. *)
Inductive gen_reachable : PatternGenerator -> Prop :=
| gen_new (s i : Z) : gen_reachable (new_PatternGenerator s i)
| gen_compute (g g' : PatternGenerator) (k : Z) (v : num) :
    gen_reachable g -> computeValue g k = Some (v, g') -> gen_reachable g'
| gen_clear (g : PatternGenerator) : gen_reachable g -> gen_reachable (clearCache g).

(** The sequence without memoisation: what a cache entry must hold. *)
Fixpoint pattern_value (fuel : nat) (seed phaseResetInterval step : Z) : option num :=
  if is_phase_reset step phaseResetInterval then Some (Num seed)
  else
    match fuel with
    | O => None
    | S fuel' =>
        match pattern_value fuel' seed phaseResetInterval (step - 1) with
        | None => None
        | Some pv => Some (collapseDigits (js_mul pv (Num seed)))
        end
    end.

Definition cache_ok (seed phaseResetInterval : Z) (cache : gmap Z num) : Prop :=
  forall k v, cache !! k = Some v -> exists f, pattern_value f seed phaseResetInterval k = Some v.

Example computeValue_seed7 :
  option_map fst (computeValue (new_PatternGenerator 7 100) 0) = Some (Num 7) /\
  option_map fst (computeValue (new_PatternGenerator 7 100) 1) = Some (Num 4) /\
  option_map fst (computeValue (new_PatternGenerator 7 100) 2) = Some (Num 1) /\
  option_map fst (computeValue (new_PatternGenerator 7 100) 3) = Some (Num 7) /\
  option_map fst (computeValue (new_PatternGenerator 7 100) 200) = Some (Num 7).
Proof. repeat split; reflexivity. Qed.

(** *** The cache only ever holds values of the sequence *)



Lemma cache_ok_empty (s i : Z) : cache_ok s i ∅.
Proof. intros k v H. rewrite lookup_empty in H. discriminate. Qed.

Lemma cache_ok_insert (s i k : Z) (v : num) (c : gmap Z num) :
  cache_ok s i c -> (exists f, pattern_value f s i k = Some v) -> cache_ok s i (<[k := v]> c).
Proof.
  intros Hc Hv k' v' H. destruct (decide (k = k')) as [<-|Hne].
  - rewrite lookup_insert_eq in H. injection H as <-. exact Hv.
  - rewrite lookup_insert_ne in H by exact Hne. eapply Hc; eauto.
Qed.

Lemma computeValue_go_sound (f : nat) : forall (s i : Z) (c c' : gmap Z num) (k : Z) (v : num),
  cache_ok s i c -> computeValue_go f s i c k = Some (v, c') ->
  (exists f', pattern_value f' s i k = Some v) /\ cache_ok s i c'.
Proof.
  induction f as [|f IH]; intros s i c c' k v Hc H; simpl in H;
    destruct (c !! k) as [w|] eqn:Hk.
  - injection H as <- <-. split; [eapply Hc; eauto|exact Hc].
  - destruct (is_phase_reset k i) eqn:Hr; [|discriminate].
    injection H as <- <-.
    assert (Hv : exists f', pattern_value f' s i k = Some (Num s)) by (exists O; simpl; rewrite Hr; reflexivity).
    split; [exact Hv|]. apply cache_ok_insert; assumption.
  - injection H as <- <-. split; [eapply Hc; eauto|exact Hc].
  - destruct (is_phase_reset k i) eqn:Hr.
    + injection H as <- <-.
      assert (Hv : exists f', pattern_value f' s i k = Some (Num s)) by (exists O; simpl; rewrite Hr; reflexivity).
      split; [exact Hv|]. apply cache_ok_insert; assumption.
    + destruct (computeValue_go f s i c (k - 1)) as [[pv c1]|] eqn:E; [|discriminate].
      injection H as <- <-.
      destruct (IH s i c c1 (k - 1) pv Hc E) as [[f1 Hf1] Hc1].
      assert (Hv : exists f', pattern_value f' s i k = Some (collapseDigits (js_mul pv (Num s)))).
      { exists (S f1). simpl. rewrite Hr, Hf1. reflexivity. }
      split; [exact Hv|]. apply cache_ok_insert; assumption.
Qed.




Lemma computeValue_sound (g g' : PatternGenerator) (k : Z) (v : num) :
  cache_ok (seed g) (phaseResetInterval g) (cache g) -> computeValue g k = Some (v, g') ->
  (exists f, pattern_value f (seed g) (phaseResetInterval g) k = Some v) /\
  seed g' = seed g /\ phaseResetInterval g' = phaseResetInterval g /\
  cache_ok (seed g') (phaseResetInterval g') (cache g').
Proof.
  intros Hc H. unfold computeValue in H.
  destruct (computeValue_go _ _ _ _ _) as [[w c']|] eqn:E; [|discriminate].
  injection H as <- <-.
  destruct (computeValue_go_sound _ _ _ _ _ _ _ Hc E) as [Hv Hc'].
  simpl. auto.
Qed.


Lemma gen_reachable_cache_ok (g : PatternGenerator) :
  gen_reachable g -> cache_ok (seed g) (phaseResetInterval g) (cache g).
Proof.
  induction 1 as [s i|g g' k v Hg IH Hcv|g Hg IH].
  - apply cache_ok_empty.
  - apply (computeValue_sound g g' k v IH Hcv).
  - apply cache_ok_empty.
Qed.

Lemma computeValue_in_sequence (g g' : PatternGenerator) (k : Z) (v : num) :
  gen_reachable g -> computeValue g k = Some (v, g') ->
  exists f, pattern_value f (seed g) (phaseResetInterval g) k = Some v.
Proof. intros Hg H. apply (computeValue_sound g g' k v (gen_reachable_cache_ok g Hg) H). Qed.

(** Every value of the sequence from a seed 1..9 is a digit 1..9. *)
Lemma pattern_value_digit (f : nat) : forall (s i k : Z) (v : num),
  1 <= s <= 9 -> pattern_value f s i k = Some v -> exists z, v = Num z /\ 1 <= z <= 9.
Proof.
  induction f as [|f IH]; intros s i k v Hs H; simpl in H;
    destruct (is_phase_reset k i); try (injection H as <-; eauto; fail); try discriminate.
  destruct (pattern_value f s i (k - 1)) as [pv|] eqn:E; [|discriminate].
  injection H as <-.
  destruct (IH s i (k - 1) pv Hs E) as (z & -> & Hz). simpl.
  rewrite collapseDigits_digital_root by nia.
  eexists; split; [reflexivity|]. unfold digital_root.
  destruct (z * s =? 0) eqn:E0; [apply Z.eqb_eq in E0; nia|].
  pose proof (Z.mod_pos_bound (z * s - 1) 9). lia.
Qed.

(** ** Messages, events and nodes (types/mesh.ts, core/mesh-node.ts) *)

Module Message.
(** [interface Message]; the [data: any] payload is kept opaque.  An
    integer [globalStep] only: on a non-integral step (which
    [validateMessage] lets through) [computeValue] never meets a reset
    step, so [receive] and [observe] throw on it. *)
Record t : Type := mk {
  senderId : string;
  globalStep : Z;
  patternValue : num;
  data : string
}.
End Message.

Module NodeConfig.
(** [interface NodeConfig extends PatternConfig] *)
Record t : Type := mk {
  nodeId : string;
  seed : Z;
  phaseResetInterval : Z
}.
End NodeConfig.

(** The object passed to the ['error'] listeners by [receive]. *)
Record MismatchError : Type := mkMismatchError {
  err_type : string;
  err_message : Message.t;
  expected : num
}.

(** What a node's [eventEmitter] emits. *)
Inductive Event : Type :=
| EvBroadcast (m : Message.t)
| EvMessage (m : Message.t)
| EvError (e : MismatchError)
| EvSync (step : Z).

(** A ['broadcast'] listener: the closure installed by
    [MeshNetwork.createNode], or a caller's callback.  Callers' callbacks
    are identified by a number; invoking one records the call. *)
Inductive Listener : Type :=
| NetworkRoute
| Callback (k : nat).

(** [class MeshNode]: its fields, and the listener lists of its
    [eventEmitter] (['message'], ['error'] and ['sync'] only ever receive
    callers' callbacks). *)
Record MeshNode : Type := mkMeshNode {
  nodeId : string;
  pattern : PatternGenerator;
  globalStep : Z;
  on_broadcast : list Listener;
  on_message : list nat;
  on_error : list nat;
  on_sync : list nat
}.

Definition new_MeshNode (config : NodeConfig.t) : MeshNode :=
  {| nodeId := NodeConfig.nodeId config;
     pattern := new_PatternGenerator (NodeConfig.seed config) (NodeConfig.phaseResetInterval config);
     globalStep := 0;
     on_broadcast := []; on_message := []; on_error := []; on_sync := [] |}.

(** The heap of node objects, the one [MeshNetwork]'s [nodes] map (a JS
    [Map], kept as an association list in insertion order), and three
    logs: [emitted] records every [eventEmitter.emit] (emitting node,
    event), [calls] every invocation of a caller's callback, and
    [received] every call of [MeshNode.receive] (node, argument). *)
Record World : Type := mkWorld {
  heap : gmap nat MeshNode;
  next_loc : nat;
  nodes : list (string * nat);
  emitted : list (nat * Event);
  calls : list (nat * Event);
  received : list (nat * Message.t)
}.

Definition empty_world : World :=
  {| heap := ∅; next_loc := 0; nodes := []; emitted := []; calls := []; received := [] |}.

(** Calls run to completion or throw; a throw keeps the mutations done
    before it, as in JavaScript. *)
Inductive res (A : Type) : Type :=
| Ret (a : A) (w : World)
| Throw (w : World).
Arguments Ret {A} a w.
Arguments Throw {A} w.

Definition M (A : Type) : Type := World -> res A.

Global Instance M_ret : MRet M := fun A a w => Ret a w.
Global Instance M_bind : MBind M := fun A B k m w =>
  match m w with
  | Ret a w' => k a w'
  | Throw w' => Throw w'
  end.

Definition res_world {A : Type} (r : res A) : World :=
  match r with Ret _ w => w | Throw w => w end.

Definition throw {A : Type} : M A := fun w => Throw w.
Definition modify (f : World -> World) : M unit := fun w => Ret tt (f w).

Definition set_heap (h : gmap nat MeshNode) (w : World) : World :=
  {| heap := h; next_loc := next_loc w; nodes := nodes w; emitted := emitted w;
     calls := calls w; received := received w |}.
Definition set_nodes (ns : list (string * nat)) (w : World) : World :=
  {| heap := heap w; next_loc := next_loc w; nodes := ns; emitted := emitted w;
     calls := calls w; received := received w |}.
Definition add_emitted (l : nat) (ev : Event) (ks : list nat) (w : World) : World :=
  {| heap := heap w; next_loc := next_loc w; nodes := nodes w;
     emitted := emitted w ++ [(l, ev)]; calls := calls w ++ map (fun k => (k, ev)) ks;
     received := received w |}.
Definition add_call (k : nat) (ev : Event) (w : World) : World :=
  {| heap := heap w; next_loc := next_loc w; nodes := nodes w; emitted := emitted w;
     calls := calls w ++ [(k, ev)]; received := received w |}.
Definition add_received (l : nat) (m : Message.t) (w : World) : World :=
  {| heap := heap w; next_loc := next_loc w; nodes := nodes w; emitted := emitted w;
     calls := calls w; received := received w ++ [(l, m)] |}.

(** [this]: the node object at a location. *)
Definition get_node (l : nat) : M MeshNode := fun w =>
  match heap w !! l with Some n => Ret n w | None => Throw w end.
Definition put_node (l : nat) (n : MeshNode) : M unit :=
  modify (fun w => set_heap (<[l := n]> (heap w)) w).

Definition set_pattern (n : MeshNode) (g : PatternGenerator) : MeshNode :=
  {| nodeId := nodeId n; pattern := g; globalStep := globalStep n; on_broadcast := on_broadcast n;
     on_message := on_message n; on_error := on_error n; on_sync := on_sync n |}.
Definition set_globalStep (n : MeshNode) (s : Z) : MeshNode :=
  {| nodeId := nodeId n; pattern := pattern n; globalStep := s; on_broadcast := on_broadcast n;
     on_message := on_message n; on_error := on_error n; on_sync := on_sync n |}.

(** [this.pattern.computeValue(step)]: updates the node's cache. *)
Definition node_computeValue (l : nat) (step : Z) : M num :=
  n ← get_node l;
  match computeValue (pattern n) step with
  | None => throw
  | Some (v, g') => put_node l (set_pattern n g');; mret v
  end.

(** [emit] of a ['message'], ['error'] or ['sync'] event: its listeners
    are callers' callbacks, called in registration order. *)
Definition emit (l : nat) (ev : Event) (listeners : list nat) : M unit :=
  modify (add_emitted l ev listeners).

(** <<
  sync(targetStep: number): void {
    if (targetStep > this.globalStep) {
      this.globalStep = targetStep;
      this.eventEmitter.emit('sync', this.globalStep);
    }
  }
>> *)
Definition sync (l : nat) (targetStep : Z) : M unit :=
  n ← get_node l;
  if globalStep n <? targetStep then
    put_node l (set_globalStep n targetStep);;
    n' ← get_node l;
    emit l (EvSync (globalStep n')) (on_sync n')
  else mret tt.

(** <<
  receive(message: Message): void {
    const expectedPattern = this.pattern.computeValue(message.globalStep);
    if (expectedPattern !== message.patternValue) {
      this.eventEmitter.emit('error', {
        type: 'pattern-mismatch', message, expected: expectedPattern });
      return;
    }
    this.sync(message.globalStep);
    this.eventEmitter.emit('message', message);
  }
>> *)
Definition receive (l : nat) (message : Message.t) : M unit :=
  modify (add_received l message);;
  expectedPattern ← node_computeValue l (Message.globalStep message);
  if negb (js_strict_eq expectedPattern (Message.patternValue message)) then
    n ← get_node l;
    emit l (EvError {| err_type := "pattern-mismatch"; err_message := message;
                       expected := expectedPattern |}) (on_error n)
  else
    sync l (Message.globalStep message);;
    n ← get_node l;
    emit l (EvMessage message) (on_message n).

(** ** MeshNetwork (core/mesh-network.ts) *)

(** [Map.prototype.set]: an existing key keeps its place. *)
Fixpoint map_set (ns : list (string * nat)) (k : string) (v : nat) : list (string * nat) :=
  match ns with
  | [] => [(k, v)]
  | (k', v') :: rest => if String.eqb k' k then (k, v) :: rest else (k', v') :: map_set rest k v
  end.

(** [Map.prototype.delete] *)
Fixpoint map_delete (ns : list (string * nat)) (k : string) : list (string * nat) :=
  match ns with
  | [] => []
  | (k', v') :: rest => if String.eqb k' k then rest else (k', v') :: map_delete rest k
  end.

(** [Map.prototype.get] *)
Fixpoint map_get (ns : list (string * nat)) (k : string) : option nat :=
  match ns with
  | [] => None
  | (k', v') :: rest => if String.eqb k' k then Some v' else map_get rest k
  end.

(** The body of [this.nodes.forEach]: no receiver can touch the registry,
    so walking the entries present when the loop starts is the same as the
    live iteration of a JS [Map].
<<
    this.nodes.forEach((node, nodeId) => {
      if (nodeId !== message.senderId) {
        node.receive(message);
      }
    });
>> *)
Fixpoint forEach_route (entries : list (string * nat)) (message : Message.t) : M unit :=
  match entries with
  | [] => mret tt
  | (nid, l) :: rest =>
      (if negb (String.eqb nid (Message.senderId message)) then receive l message else mret tt);;
      forEach_route rest message
  end.

(** [private broadcast(message: Message, _sender: MeshNode)] *)
Definition network_broadcast (message : Message.t) (_sender : nat) : M unit :=
  fun w => forEach_route (nodes w) message w.

(** [this.eventEmitter.emit('broadcast', message)]: the listeners in
    registration order. *)
Fixpoint dispatch_broadcast (sender : nat) (message : Message.t) (ls : list Listener) : M unit :=
  match ls with
  | [] => mret tt
  | Callback k :: ls' => modify (add_call k (EvBroadcast message));; dispatch_broadcast sender message ls'
  | NetworkRoute :: ls' => network_broadcast message sender;; dispatch_broadcast sender message ls'
  end.

Definition emit_broadcast (l : nat) (message : Message.t) (ls : list Listener) : M unit :=
  modify (add_emitted l (EvBroadcast message) []);;
  dispatch_broadcast l message ls.

(** [private incrementStep(): void { this.globalStep++; }], exact: from
    2^53 on an engine's [++] rounds back to the same step. *)
Definition incrementStep (l : nat) : M unit :=
  n ← get_node l;
  put_node l (set_globalStep n (globalStep n + 1)).

(** <<
  broadcast(data: any): void {
    const message: Message = {
      senderId: this.nodeId,
      globalStep: this.globalStep,
      patternValue: this.pattern.computeValue(this.globalStep),
      data
    };
    this.eventEmitter.emit('broadcast', message);
    this.incrementStep();
  }
>> *)
Definition broadcast (l : nat) (data : string) : M unit :=
  n ← get_node l;
  v ← node_computeValue l (globalStep n);
  let message := {| Message.senderId := nodeId n; Message.globalStep := globalStep n;
                    Message.patternValue := v; Message.data := data |} in
  n1 ← get_node l;
  emit_broadcast l message (on_broadcast n1);;
  incrementStep l.

(** [new MeshNode(config)]: a fresh object. *)
Definition alloc (n : MeshNode) : M nat := fun w =>
  Ret (next_loc w)
    {| heap := <[next_loc w := n]> (heap w); next_loc := S (next_loc w); nodes := nodes w;
       emitted := emitted w; calls := calls w; received := received w |}.

Definition add_broadcast_listener (l : nat) (x : Listener) : M unit :=
  n ← get_node l;
  put_node l {| nodeId := nodeId n; pattern := pattern n; globalStep := globalStep n;
                on_broadcast := on_broadcast n ++ [x]; on_message := on_message n;
                on_error := on_error n; on_sync := on_sync n |}.

(** [onBroadcast], [onMessage], [onError], [onSync] with a caller's callback. *)
Definition onBroadcast (l : nat) (k : nat) : M unit := add_broadcast_listener l (Callback k).
Definition onMessage (l : nat) (k : nat) : M unit :=
  n ← get_node l;
  put_node l {| nodeId := nodeId n; pattern := pattern n; globalStep := globalStep n;
                on_broadcast := on_broadcast n; on_message := on_message n ++ [k];
                on_error := on_error n; on_sync := on_sync n |}.
Definition onError (l : nat) (k : nat) : M unit :=
  n ← get_node l;
  put_node l {| nodeId := nodeId n; pattern := pattern n; globalStep := globalStep n;
                on_broadcast := on_broadcast n; on_message := on_message n;
                on_error := on_error n ++ [k]; on_sync := on_sync n |}.
Definition onSync (l : nat) (k : nat) : M unit :=
  n ← get_node l;
  put_node l {| nodeId := nodeId n; pattern := pattern n; globalStep := globalStep n;
                on_broadcast := on_broadcast n; on_message := on_message n;
                on_error := on_error n; on_sync := on_sync n ++ [k] |}.

(** <<
  createNode(config: NodeConfig): MeshNode {
    const node = new MeshNode(config);
    node.onBroadcast((message: Message) => {
      this.broadcast(message, node);
    });
    this.nodes.set(config.nodeId, node);
    return node;
  }
>> *)
Definition createNode (config : NodeConfig.t) : M nat :=
  node ← alloc (new_MeshNode config);
  add_broadcast_listener node NetworkRoute;;
  modify (fun w => set_nodes (map_set (nodes w) (NodeConfig.nodeId config) node) w);;
  mret node.

Definition getNode (nodeId : string) : M (option nat) := fun w => Ret (map_get (nodes w) nodeId) w.

Definition removeNode (nodeId : string) : M unit :=
  modify (fun w => set_nodes (map_delete (nodes w) nodeId) w).

(** The calls a program can make on the mesh. *)
Inductive Op : Type :=
| OpCreateNode (config : NodeConfig.t)
| OpNewMeshNode (config : NodeConfig.t)
| OpRemoveNode (nodeId : string)
| OpBroadcast (l : nat) (data : string)
| OpReceive (l : nat) (message : Message.t)
| OpSync (l : nat) (targetStep : Z)
| OpOnBroadcast (l : nat) (k : nat)
| OpOnMessage (l : nat) (k : nat)
| OpOnError (l : nat) (k : nat)
| OpOnSync (l : nat) (k : nat).

Definition run_op (op : Op) : M unit :=
  match op with
  | OpCreateNode c => createNode c;; mret tt
  | OpNewMeshNode c => alloc (new_MeshNode c);; mret tt
  | OpRemoveNode i => removeNode i
  | OpBroadcast l d => broadcast l d
  | OpReceive l m => receive l m
  | OpSync l t => sync l t
  | OpOnBroadcast l k => onBroadcast l k
  | OpOnMessage l k => onMessage l k
  | OpOnError l k => onError l k
  | OpOnSync l k => onSync l k
  end.

(** A sequence of calls; a call that throws is caught by the caller and
    the program goes on. *)
Definition exec (ops : list Op) (w : World) : World :=
  fold_left (fun w op => res_world (run_op op w)) ops w.

Definition node_at (w : World) (l : nat) : option MeshNode := heap w !! l.

(** ** MeshObserver (core/mesh-observer.ts) *)

(** The anomaly record; [timestamp] is [Date.now()], passed in. *)
Record Anomaly : Type := mkAnomaly {
  an_type : string;
  an_message : Message.t;
  an_expected : num;
  an_received : num;
  an_timestamp : Z
}.

Inductive ObserverEvent : Type :=
| EvAnomaly (a : Anomaly)
| EvValidMessage (m : Message.t).

Record MeshObserver : Type := mkMeshObserver {
  obs_pattern : PatternGenerator;
  observedMessages : list Message.t;
  anomalies : list Anomaly
}.

Definition new_MeshObserver (seed phaseResetInterval : Z) : MeshObserver :=
  {| obs_pattern := new_PatternGenerator seed phaseResetInterval;
     observedMessages := []; anomalies := [] |}.

(** [observe(message)]; [None] is a throw of [computeValue]. *)
Definition observe (now : Z) (o : MeshObserver) (message : Message.t)
    : option (MeshObserver * ObserverEvent) :=
  match computeValue (obs_pattern o) (Message.globalStep message) with
  | None => None
  | Some (expectedPattern, g') =>
      if negb (js_strict_eq expectedPattern (Message.patternValue message)) then
        let anomaly := {| an_type := "pattern-mismatch"; an_message := message;
                          an_expected := expectedPattern;
                          an_received := Message.patternValue message; an_timestamp := now |} in
        Some ({| obs_pattern := g'; observedMessages := observedMessages o;
                 anomalies := anomalies o ++ [anomaly] |}, EvAnomaly anomaly)
      else
        Some ({| obs_pattern := g'; observedMessages := observedMessages o ++ [message];
                 anomalies := anomalies o |}, EvValidMessage message)
  end.

Module Statistics.
Record t : Type := mk {
  totalObserved : Z;
  validMessages : Z;
  anomalies : Z;
  successRate : Q
}.
End Statistics.

(** The float division is modelled by the exact one of [Q].
<<
    const totalObserved = this.observedMessages.length + this.anomalies.length;
    const validMessages = this.observedMessages.length;
    const anomalies = this.anomalies.length;
    const successRate = totalObserved > 0 ? (validMessages / totalObserved) * 100 : 0;
>> *)
Definition getStatistics (o : MeshObserver) : Statistics.t :=
  let totalObserved := Z.of_nat (length (observedMessages o)) + Z.of_nat (length (anomalies o)) in
  let validMessages := Z.of_nat (length (observedMessages o)) in
  let anomalies := Z.of_nat (length (anomalies o)) in
  let successRate :=
    if 0 <? totalObserved
    then (inject_Z validMessages / inject_Z totalObserved * inject_Z 100)%Q
    else 0%Q in
  Statistics.mk totalObserved validMessages anomalies successRate.

(** [clearHistory()]: both logs emptied, the cache kept. *)
Definition clearHistory (o : MeshObserver) : MeshObserver :=
  {| obs_pattern := obs_pattern o; observedMessages := []; anomalies := [] |}.

(** * Properties *)

Ltac unfold_M :=
  unfold emit, get_node, put_node, modify, throw, mbind, M_bind, mret, M_ret in *.

Lemma map_get_set_eq (ns : list (string * nat)) (k : string) (v : nat) :
  map_get (map_set ns k v) k = Some v.
Proof.
  induction ns as [|[k' v'] ns IH]; simpl.
  - rewrite String.eqb_refl. reflexivity.
  - destruct (String.eqb k' k) eqn:E; simpl.
    + rewrite String.eqb_refl. reflexivity.
    + rewrite E. exact IH.
Qed.

(** ** C1 *)

(** C1 (counterexample): a fresh observer has observed nothing, and its
    success rate is 0, not 100. *)
Lemma observer_fresh_successRate_not_100 :
  Statistics.totalObserved (getStatistics (new_MeshObserver 7 100)) = 0 /\
  ~ (Statistics.successRate (getStatistics (new_MeshObserver 7 100)) == 100)%Q.
Proof. vm_compute. split; [reflexivity|discriminate]. Qed.

(** C1 (amended): whenever [totalObserved] is 0, [getStatistics] reports
    a success rate of 0. *)
Lemma getStatistics_successRate_zero (o : MeshObserver) :
  Statistics.totalObserved (getStatistics o) = 0 ->
  Statistics.successRate (getStatistics o) = 0%Q.
Proof.
  unfold getStatistics. simpl. intros H0. rewrite H0. reflexivity.
Qed.

Lemma getStatistics_successRate_zero_witness :
  Statistics.totalObserved (getStatistics (clearHistory (new_MeshObserver 7 100))) = 0 /\
  Statistics.successRate (getStatistics (clearHistory (new_MeshObserver 7 100))) = 0%Q.
Proof.
  split; [reflexivity|]. apply getStatistics_successRate_zero. reflexivity.
Defined.

(** ** C2 *)

(** C2 (counterexample): [createNode] with a zero reset interval and an
    empty id returns normally and registers the node under [""]. *)
Lemma createNode_invalid_config_accepted :
  match createNode (NodeConfig.mk "" 7 0) empty_world with
  | Ret l w =>
      map_get (nodes w) "" = Some l /\
      option_map (fun n => phaseResetInterval (pattern n)) (node_at w l) = Some 0
  | Throw _ => False
  end.
Proof. vm_compute. split; reflexivity. Qed.

(** C2 (amended): [createNode] validates nothing: for every
    configuration it returns normally, with a fresh node built from the
    configuration as given and registered under [config.nodeId]. *)
Lemma createNode_never_fails (config : NodeConfig.t) (w : World) :
  exists l w',
    createNode config w = Ret l w' /\
    map_get (nodes w') (NodeConfig.nodeId config) = Some l /\
    node_at w' l =
      Some {| nodeId := NodeConfig.nodeId config;
              pattern := new_PatternGenerator (NodeConfig.seed config)
                           (NodeConfig.phaseResetInterval config);
              globalStep := 0;
              on_broadcast := [NetworkRoute]; on_message := []; on_error := []; on_sync := [] |}.
Proof.
  unfold createNode, add_broadcast_listener, alloc. unfold_M. simpl.
  rewrite lookup_insert_eq. simpl.
  eexists _, _. split; [reflexivity|]. simpl. split.
  - apply map_get_set_eq.
  - unfold node_at. simpl. rewrite lookup_insert_eq. reflexivity.
Qed.

(** ** C4 *)

(** C4: when the node's generator gives a value other than the message's
    [patternValue], [receive] emits exactly one event, a
    ['pattern-mismatch'] error with the message and the expected value
    (so no ['message'] event), and the node's [globalStep] stays. *)
Theorem receive_mismatch_drops (w : World) (l : nat) (n : MeshNode) (message : Message.t)
    (v : num) (g' : PatternGenerator) :
  node_at w l = Some n ->
  computeValue (pattern n) (Message.globalStep message) = Some (v, g') ->
  js_strict_eq v (Message.patternValue message) = false ->
  exists w',
    receive l message w = Ret tt w' /\
    emitted w' = emitted w ++
      [(l, EvError {| err_type := "pattern-mismatch"; err_message := message; expected := v |})] /\
    exists n', node_at w' l = Some n' /\ globalStep n' = globalStep n.
Proof.
  unfold node_at. intros Hn Hcv Hneq.
  unfold receive, node_computeValue. unfold_M. simpl.
  rewrite Hn, Hcv, Hneq. simpl. rewrite lookup_insert_eq. simpl.
  eexists. split; [reflexivity|]. simpl. split; [reflexivity|].
  eexists. split; [rewrite lookup_insert_eq; reflexivity|reflexivity].
Qed.

Lemma receive_mismatch_drops_witness :
  exists w' : World,
    receive 0 (Message.mk "p" 0 (Num 9) "")
      (exec [OpCreateNode (NodeConfig.mk "n" 7 100)] empty_world) = Ret tt w' /\
    emitted w' = emitted (exec [OpCreateNode (NodeConfig.mk "n" 7 100)] empty_world) ++
      [(0%nat, EvError {| err_type := "pattern-mismatch";
                          err_message := Message.mk "p" 0 (Num 9) ""; expected := Num 7 |})] /\
    exists n', node_at w' 0 = Some n' /\ globalStep n' = 0.
Proof.
  apply (receive_mismatch_drops _ 0
           {| nodeId := "n"; pattern := new_PatternGenerator 7 100; globalStep := 0;
              on_broadcast := [NetworkRoute]; on_message := []; on_error := []; on_sync := [] |}
           (Message.mk "p" 0 (Num 9) "") (Num 7)
           {| seed := 7; phaseResetInterval := 100; cache := <[0 := Num 7]> ∅ |});
    vm_compute; reflexivity.
Defined.

(** ** C8 *)

(** C8: a message whose [patternValue] is the node's own value for a
    step at or below the node's [globalStep] is accepted: [receive] emits
    exactly one event, a ['message'] event with it (and no ['sync']), and
    the node's [globalStep] is unchanged. *)
Theorem receive_stale_replay_accepted (w : World) (l : nat) (n : MeshNode) (message : Message.t)
    (v : num) (g' : PatternGenerator) :
  node_at w l = Some n ->
  0 <= Message.globalStep message <= globalStep n ->
  computeValue (pattern n) (Message.globalStep message) = Some (v, g') ->
  js_strict_eq v (Message.patternValue message) = true ->
  exists w',
    receive l message w = Ret tt w' /\
    emitted w' = emitted w ++ [(l, EvMessage message)] /\
    exists n', node_at w' l = Some n' /\ globalStep n' = globalStep n.
Proof.
  unfold node_at. intros Hn Hstep Hcv Heq.
  unfold receive, node_computeValue, sync. unfold_M. simpl.
  rewrite Hn, Hcv, Heq. simpl. rewrite lookup_insert_eq. simpl.
  destruct (globalStep n <? Message.globalStep message) eqn:E; [apply Z.ltb_lt in E; lia|].
  simpl. rewrite lookup_insert_eq.
  eexists. split; [reflexivity|]. simpl. split; [reflexivity|].
  eexists. split; [rewrite lookup_insert_eq; reflexivity|reflexivity].
Qed.

Lemma receive_stale_replay_accepted_witness :
  exists w' : World,
    receive 0 (Message.mk "p" 0 (Num 7) "")
      (exec [OpCreateNode (NodeConfig.mk "n" 7 100); OpBroadcast 0 "x"] empty_world) = Ret tt w' /\
    emitted w' = emitted (exec [OpCreateNode (NodeConfig.mk "n" 7 100); OpBroadcast 0 "x"] empty_world)
                 ++ [(0%nat, EvMessage (Message.mk "p" 0 (Num 7) ""))] /\
    exists n', node_at w' 0 = Some n' /\ globalStep n' = 1.
Proof.
  apply (receive_stale_replay_accepted _ 0
           {| nodeId := "n";
              pattern := {| seed := 7; phaseResetInterval := 100; cache := <[0 := Num 7]> ∅ |};
              globalStep := 1;
              on_broadcast := [NetworkRoute]; on_message := []; on_error := []; on_sync := [] |}
           (Message.mk "p" 0 (Num 7) "") (Num 7)
           {| seed := 7; phaseResetInterval := 100; cache := <[0 := Num 7]> ∅ |});
    [vm_compute; reflexivity | simpl; lia | vm_compute; reflexivity | vm_compute; reflexivity].
Defined.

(** ** C6 *)

(** C6: for a generator built with a seed in 1..9 and a positive
    interval, whatever it has computed before, every value [computeValue]
    returns, at any step, is an integer in 0..9.  (The call can also
    throw: a [RangeError] when the recursion is deeper than the engine's
    stack; no value is returned then.) *)
Theorem computeValue_single_digit (g g' : PatternGenerator) (step : Z) (v : num) :
  gen_reachable g -> 1 <= seed g <= 9 -> 0 < phaseResetInterval g ->
  computeValue g step = Some (v, g') ->
  exists z, v = Num z /\ 0 <= z <= 9.
Proof.
  intros Hg Hs _ Hcv.
  destruct (computeValue_in_sequence g g' step v Hg Hcv) as [f Hf].
  destruct (pattern_value_digit f _ _ _ _ Hs Hf) as (z & -> & Hz).
  exists z. split; [reflexivity|lia].
Qed.

Lemma computeValue_single_digit_witness :
  exists v g', computeValue (new_PatternGenerator 7 100) 250 = Some (v, g') /\
    exists z, v = Num z /\ 0 <= z <= 9.
Proof.
  destruct (computeValue (new_PatternGenerator 7 100) 250) as [[v g']|] eqn:E;
    [|vm_compute in E; discriminate].
  exists v, g'. split; [reflexivity|].
  apply (computeValue_single_digit (new_PatternGenerator 7 100) g' 250 v);
    [apply gen_new | simpl; lia | simpl; lia | exact E].
Defined.

(** ** C10 *)

(** [Number.MAX_SAFE_INTEGER] *)
Definition MAX_SAFE_INTEGER : Z := 2 ^ 53 - 1.




(** ** Frames: what a node-level call may change

    [broadcast], [receive] and [sync] leave the registry, the allocation
    counter, the set of objects, and every node's id, seed, interval and
    listeners alone; they only grow caches and move steps forward. *)

Definition node_frame (n n' : MeshNode) : Prop :=
  nodeId n' = nodeId n /\
  seed (pattern n') = seed (pattern n) /\
  phaseResetInterval (pattern n') = phaseResetInterval (pattern n) /\
  on_broadcast n' = on_broadcast n /\ on_message n' = on_message n /\
  on_error n' = on_error n /\ on_sync n' = on_sync n /\
  globalStep n <= globalStep n'.

Definition frame (w w' : World) : Prop :=
  nodes w' = nodes w /\ next_loc w' = next_loc w /\
  (forall l, heap w !! l = None <-> heap w' !! l = None) /\
  (forall l n, heap w !! l = Some n -> exists n', heap w' !! l = Some n' /\ node_frame n n').

Definition frames {A : Type} (c : M A) : Prop := forall w, frame w (res_world (c w)).

Lemma node_frame_refl (n : MeshNode) : node_frame n n.
Proof. repeat split; lia. Qed.

Lemma node_frame_trans (n1 n2 n3 : MeshNode) :
  node_frame n1 n2 -> node_frame n2 n3 -> node_frame n1 n3.
Proof. unfold node_frame. intros H1 H2. intuition (try congruence; try lia). Qed.

Lemma frame_refl (w : World) : frame w w.
Proof.
  repeat split; auto. intros l n H. exists n. split; [exact H|apply node_frame_refl].
Qed.

Lemma frame_trans (w1 w2 w3 : World) : frame w1 w2 -> frame w2 w3 -> frame w1 w3.
Proof.
  intros (N1 & L1 & D1 & H1) (N2 & L2 & D2 & H2). repeat split.
  - congruence.
  - congruence.
  - intros H. apply D2, D1, H.
  - intros H. apply D1, D2, H.
  - intros l n Hn. destruct (H1 l n Hn) as (n2 & Hn2 & F2).
    destruct (H2 l n2 Hn2) as (n3 & Hn3 & F3).
    exists n3. split; [exact Hn3|eapply node_frame_trans; eauto].
Qed.

Lemma frame_put (w : World) (l : nat) (n n' : MeshNode) :
  heap w !! l = Some n -> node_frame n n' -> frame w (set_heap (<[l := n']> (heap w)) w).
Proof.
  intros Hn Hf. repeat split; simpl.
  - intros H. destruct (decide (l = l0)) as [<-|Hne]; [congruence|].
    rewrite lookup_insert_ne by exact Hne. exact H.
  - intros H. destruct (decide (l = l0)) as [<-|Hne]; [rewrite lookup_insert_eq in H; discriminate|].
    rewrite lookup_insert_ne in H by exact Hne. exact H.
  - intros l' n1 H1. destruct (decide (l = l')) as [<-|Hne].
    + rewrite lookup_insert_eq. exists n'. split; [reflexivity|congruence].
    + rewrite lookup_insert_ne by exact Hne. exists n1. split; [exact H1|apply node_frame_refl].
Qed.

Lemma frame_same_heap (w w' : World) :
  heap w' = heap w -> nodes w' = nodes w -> next_loc w' = next_loc w -> frame w w'.
Proof.
  intros Hh Hn Hl. repeat split; try congruence; rewrite Hh; auto.
  intros l n H. exists n. split; [exact H|apply node_frame_refl].
Qed.

Lemma frames_bind {A B : Type} (c : M A) (k : A -> M B) :
  frames c -> (forall a, frames (k a)) -> frames (c ≫= k).
Proof.
  intros Hc Hk w. unfold mbind, M_bind. specialize (Hc w).
  destruct (c w) as [a w'|w']; simpl in *; [eapply frame_trans; [exact Hc|apply Hk]|exact Hc].
Qed.

Lemma frames_ret {A : Type} (a : A) : frames (mret a).
Proof. intros w. apply frame_refl. Qed.

Lemma frames_throw {A : Type} : frames (@throw A).
Proof. intros w. apply frame_refl. Qed.

Lemma frames_get_node (l : nat) : frames (get_node l).
Proof. intros w. unfold get_node. destruct (heap w !! l); apply frame_refl. Qed.

Lemma frames_emit (l : nat) (ev : Event) (ks : list nat) : frames (emit l ev ks).
Proof. intros w. apply frame_same_heap; reflexivity. Qed.

Lemma frames_add_received (l : nat) (m : Message.t) : frames (modify (add_received l m)).
Proof. intros w. apply frame_same_heap; reflexivity. Qed.

Lemma frames_add_call (k : nat) (ev : Event) : frames (modify (add_call k ev)).
Proof. intros w. apply frame_same_heap; reflexivity. Qed.

(** Read the node, then write back a framed version of it. *)
Lemma frames_get_put {A : Type} (l : nat) (f : MeshNode -> option (MeshNode * A)) :
  (forall n n' a, f n = Some (n', a) -> node_frame n n') ->
  frames (n ← get_node l;
          match f n with None => throw | Some (n', a) => put_node l n';; mret a end).
Proof.
  intros Hf w. unfold_M. destruct (heap w !! l) as [n|] eqn:Hn; simpl; [|apply frame_refl].
  destruct (f n) as [[n' a]|] eqn:E; simpl; [|apply frame_refl].
  eapply frame_put; [exact Hn|]. eapply Hf; eauto.
Qed.

Lemma computeValue_keeps (g g' : PatternGenerator) (k : Z) (v : num) :
  computeValue g k = Some (v, g') ->
  seed g' = seed g /\ phaseResetInterval g' = phaseResetInterval g.
Proof.
  unfold computeValue. destruct (computeValue_go _ _ _ _ _) as [[w c]|]; [|discriminate].
  intros H. injection H as _ <-. simpl. auto.
Qed.

Lemma frames_modify_emitted (l : nat) (ev : Event) (ks : list nat) : frames (modify (add_emitted l ev ks)).
Proof. intros w. apply frame_same_heap; reflexivity. Qed.

Lemma frames_node_computeValue (l : nat) (step : Z) : frames (node_computeValue l step).
Proof.
  intros w. unfold node_computeValue. unfold_M.
  destruct (heap w !! l) as [n|] eqn:Hn; simpl; [|apply frame_refl].
  destruct (computeValue (pattern n) step) as [[v g']|] eqn:E; simpl; [|apply frame_refl].
  eapply frame_put; [exact Hn|]. destruct (computeValue_keeps _ _ _ _ E).
  unfold node_frame; simpl; repeat split; auto; lia.
Qed.

Lemma frames_sync (l : nat) (t : Z) : frames (sync l t).
Proof.
  intros w. unfold sync. unfold_M.
  destruct (heap w !! l) as [n|] eqn:Hn; simpl; [|apply frame_refl].
  destruct (globalStep n <? t) eqn:E; simpl; [|apply frame_refl].
  apply Z.ltb_lt in E. rewrite lookup_insert_eq. simpl.
  eapply frame_trans; [eapply frame_put; [exact Hn|]|apply frame_same_heap; reflexivity].
  unfold node_frame; simpl; repeat split; auto; lia.
Qed.

Lemma frames_incrementStep (l : nat) : frames (incrementStep l).
Proof.
  intros w. unfold incrementStep. unfold_M.
  destruct (heap w !! l) as [n|] eqn:Hn; simpl; [|apply frame_refl].
  eapply frame_put; [exact Hn|]. unfold node_frame; simpl; repeat split; auto; lia.
Qed.

Create HintDb frames.

#[local] Hint Resolve frames_ret frames_throw frames_get_node frames_emit frames_add_received
  frames_add_call frames_modify_emitted frames_node_computeValue frames_sync
  frames_incrementStep : frames.

Ltac frames_tac :=
  repeat match goal with
  | |- frames (_ ≫= _) => apply frames_bind; [|intros ?]
  | |- frames (if ?b then _ else _) => destruct b
  | |- _ => solve [eauto with frames]
  end.

Lemma frames_receive (l : nat) (m : Message.t) : frames (receive l m).
Proof. unfold receive. frames_tac. Qed.

Lemma frames_forEach_route (entries : list (string * nat)) (m : Message.t) :
  frames (forEach_route entries m).
Proof.
  induction entries as [|[nid l] rest IH]; simpl; [apply frames_ret|].
  apply frames_bind; [|intros _; exact IH].
  destruct (negb _); [apply frames_receive|apply frames_ret].
Qed.

Lemma frames_network_broadcast (m : Message.t) (s : nat) : frames (network_broadcast m s).
Proof. intros w. apply (frames_forEach_route (nodes w) m w). Qed.

Lemma frames_dispatch_broadcast (s : nat) (m : Message.t) (ls : list Listener) :
  frames (dispatch_broadcast s m ls).
Proof.
  induction ls as [|[|k] ls IH]; simpl; [apply frames_ret| |];
    (apply frames_bind; [|intros _; exact IH]); eauto using frames_network_broadcast with frames.
Qed.

#[local] Hint Resolve frames_receive frames_network_broadcast frames_dispatch_broadcast : frames.

Lemma frames_broadcast (l : nat) (d : string) : frames (broadcast l d).
Proof. unfold broadcast, emit_broadcast. frames_tac. Qed.

(** ** Worlds a program can reach *)

Definition reachable (w : World) : Prop := exists ops, w = exec ops empty_world.

Fixpoint count_route (ls : list Listener) : nat :=
  match ls with
  | [] => O
  | NetworkRoute :: ls' => S (count_route ls')
  | Callback _ :: ls' => count_route ls'
  end.

(** The invariant of reachable worlds: registry keys are distinct, every
    registered node sits under its own id and carries the network's
    route once, steps are non-negative, and allocation is fresh. *)
Definition world_ok (w : World) : Prop :=
  List.NoDup (map fst (nodes w)) /\
  (forall id l, In (id, l) (nodes w) ->
     exists n, heap w !! l = Some n /\ nodeId n = id /\ count_route (on_broadcast n) = 1%nat) /\
  (forall l n, heap w !! l = Some n -> 0 <= globalStep n) /\
  (forall l, (next_loc w <= l)%nat -> heap w !! l = None).

Lemma world_ok_frame (w w' : World) : world_ok w -> frame w w' -> world_ok w'.
Proof.
  intros (W1 & W2 & W3 & W4) (F1 & F2 & F3 & F4). unfold world_ok. rewrite F1, F2. repeat split.
  - exact W1.
  - intros id l Hin. destruct (W2 id l Hin) as (n & Hn & Hid & Hc).
    destruct (F4 l n Hn) as (n' & Hn' & Hf). exists n'. unfold node_frame in Hf.
    intuition congruence.
  - intros l n' Hn'. destruct (heap w !! l) as [n|] eqn:Hn.
    + destruct (F4 l n Hn) as (n'' & Hn'' & Hf). rewrite Hn' in Hn''. injection Hn'' as <-.
      unfold node_frame in Hf. pose proof (W3 l n Hn). lia.
    + apply F3 in Hn. congruence.
  - intros l Hl. apply F3, W4. lia.
Qed.

Lemma map_set_keys (ns : list (string * nat)) (k : string) (v : nat) (x : string) :
  In x (map fst (map_set ns k v)) -> x = k \/ In x (map fst ns).
Proof.
  induction ns as [|[k' v'] ns IH]; simpl; [intuition|].
  destruct (String.eqb k' k) eqn:E; simpl; [apply String.eqb_eq in E; subst; tauto|].
  intros [->|H]; [tauto|]. destruct (IH H); tauto.
Qed.

Lemma map_set_NoDup (ns : list (string * nat)) (k : string) (v : nat) :
  List.NoDup (map fst ns) -> List.NoDup (map fst (map_set ns k v)).
Proof.
  induction ns as [|[k' v'] ns IH]; simpl; intros H.
  - constructor; [intros []|constructor].
  - inversion H as [|? ? Hnin Hnd]; subst.
    destruct (String.eqb k' k) eqn:E; simpl.
    + apply String.eqb_eq in E. subst. constructor; assumption.
    + apply String.eqb_neq in E. constructor; [|apply IH; exact Hnd].
      intros Hin. destruct (map_set_keys _ _ _ _ Hin); [congruence|contradiction].
Qed.

Lemma map_set_in (ns : list (string * nat)) (k : string) (v : nat) (id : string) (l : nat) :
  List.NoDup (map fst ns) ->
  In (id, l) (map_set ns k v) -> (id = k /\ l = v) \/ (id <> k /\ In (id, l) ns).
Proof.
  induction ns as [|[k' v'] ns IH]; simpl; intros Hnd.
  - intros [H|[]]. injection H as <- <-. tauto.
  - inversion Hnd as [|? ? Hnin Hnd']; subst.
    destruct (String.eqb k' k) eqn:E; simpl.
    + apply String.eqb_eq in E. subst. intros [H|H]; [injection H as <- <-; tauto|].
      right. split; [|tauto]. intros ->. apply Hnin. apply (in_map fst _ (k, l)). exact H.
    + apply String.eqb_neq in E.
      intros [H|H]; [injection H as <- <-; tauto|].
      destruct (IH Hnd' H); tauto.
Qed.

Lemma map_delete_in (ns : list (string * nat)) (k : string) (x : string * nat) :
  In x (map_delete ns k) -> In x ns.
Proof.
  induction ns as [|[k' v'] ns IH]; simpl; [tauto|].
  destruct (String.eqb k' k); simpl; [tauto|]. intros [H|H]; [tauto|right; apply IH, H].
Qed.

Lemma map_delete_NoDup (ns : list (string * nat)) (k : string) :
  List.NoDup (map fst ns) -> List.NoDup (map fst (map_delete ns k)).
Proof.
  induction ns as [|[k' v'] ns IH]; simpl; intros H; [exact H|].
  inversion H as [|? ? Hnin Hnd]; subst.
  destruct (String.eqb k' k); simpl; [exact Hnd|].
  constructor; [|apply IH, Hnd].
  intros Hin. apply in_map_iff in Hin as ([k'' v''] & Hk & Hin). simpl in Hk. subst k''.
  apply Hnin. apply (in_map fst _ (k', v'')). apply (map_delete_in _ k), Hin.
Qed.

Lemma world_ok_put (w : World) (l : nat) (n n' : MeshNode) :
  world_ok w -> heap w !! l = Some n -> nodeId n' = nodeId n ->
  count_route (on_broadcast n') = count_route (on_broadcast n) -> 0 <= globalStep n' ->
  world_ok (set_heap (<[l := n']> (heap w)) w).
Proof.
  intros (W1 & W2 & W3 & W4) Hn Hid Hc Hs. unfold world_ok; simpl. repeat split.
  - exact W1.
  - intros id l0 Hin. destruct (W2 id l0 Hin) as (n0 & Hn0 & Hid0 & Hc0).
    destruct (decide (l = l0)) as [<-|Hne].
    + rewrite lookup_insert_eq. exists n'. rewrite Hn in Hn0. injection Hn0 as <-.
      split; [reflexivity|]. split; congruence.
    + rewrite lookup_insert_ne by exact Hne. eauto.
  - intros l0 n0 Hn0. destruct (decide (l = l0)) as [<-|Hne].
    + rewrite lookup_insert_eq in Hn0. injection Hn0 as <-. exact Hs.
    + rewrite lookup_insert_ne in Hn0 by exact Hne. eauto.
  - intros l0 Hl0. destruct (decide (l = l0)) as [<-|Hne].
    + rewrite W4 in Hn by exact Hl0. discriminate.
    + rewrite lookup_insert_ne by exact Hne. apply W4, Hl0.
Qed.

Lemma world_ok_alloc (w : World) (n : MeshNode) :
  world_ok w -> 0 <= globalStep n -> world_ok (res_world (alloc n w)).
Proof.
  intros (W1 & W2 & W3 & W4) Hs. unfold alloc, world_ok; simpl. repeat split.
  - exact W1.
  - intros id l0 Hin. destruct (W2 id l0 Hin) as (n0 & Hn0 & Hid0 & Hc0).
    assert (l0 <> next_loc w) by (intros ->; rewrite W4 in Hn0 by lia; discriminate).
    rewrite lookup_insert_ne by congruence. eauto.
  - intros l0 n0 Hn0. destruct (decide (next_loc w = l0)) as [<-|Hne].
    + rewrite lookup_insert_eq in Hn0. injection Hn0 as <-. exact Hs.
    + rewrite lookup_insert_ne in Hn0 by exact Hne. eauto.
  - intros l0 Hl0. rewrite lookup_insert_ne by lia. apply W4. lia.
Qed.

Lemma createNode_result (config : NodeConfig.t) (w : World) :
  createNode config w =
  Ret (next_loc w)
    {| heap := <[next_loc w :=
                 {| nodeId := NodeConfig.nodeId config;
                    pattern := new_PatternGenerator (NodeConfig.seed config)
                                 (NodeConfig.phaseResetInterval config);
                    globalStep := 0; on_broadcast := [NetworkRoute];
                    on_message := []; on_error := []; on_sync := [] |}]>
               (<[next_loc w := new_MeshNode config]> (heap w));
       next_loc := S (next_loc w);
       nodes := map_set (nodes w) (NodeConfig.nodeId config) (next_loc w);
       emitted := emitted w; calls := calls w; received := received w |}.
Proof.
  unfold createNode, add_broadcast_listener, alloc. unfold_M. simpl.
  rewrite lookup_insert_eq. reflexivity.
Qed.

Lemma world_ok_createNode (config : NodeConfig.t) (w : World) :
  world_ok w -> world_ok (res_world (createNode config w)).
Proof.
  intros (W1 & W2 & W3 & W4). rewrite createNode_result. unfold world_ok; simpl.
  repeat split.
  - apply map_set_NoDup, W1.
  - intros id l0 Hin. destruct (map_set_in _ _ _ _ _ W1 Hin) as [[-> ->]|[Hne Hin']].
    + rewrite lookup_insert_eq. eexists. split; [reflexivity|]. split; reflexivity.
    + destruct (W2 id l0 Hin') as (n0 & Hn0 & Hid0 & Hc0).
      assert (l0 <> next_loc w) by (intros ->; rewrite W4 in Hn0 by lia; discriminate).
      rewrite !lookup_insert_ne by congruence. eauto.
  - intros l0 n0 Hn0. destruct (decide (next_loc w = l0)) as [<-|Hne].
    + rewrite lookup_insert_eq in Hn0. injection Hn0 as <-. simpl. lia.
    + rewrite !lookup_insert_ne in Hn0 by exact Hne. eauto.
  - intros l0 Hl0. rewrite !lookup_insert_ne by lia. apply W4. lia.
Qed.

Lemma world_ok_removeNode (i : string) (w : World) :
  world_ok w -> world_ok (res_world (removeNode i w)).
Proof.
  intros (W1 & W2 & W3 & W4). unfold removeNode, modify, world_ok; simpl. repeat split.
  - apply map_delete_NoDup, W1.
  - intros id l0 Hin. apply W2. eapply map_delete_in; eauto.
  - exact W3.
  - exact W4.
Qed.

Lemma world_ok_run_op (op : Op) (w : World) : world_ok w -> world_ok (res_world (run_op op w)).
Proof.
  intros Hw. destruct op as [c|c|i|l d|l m|l t|l k|l k|l k|l k]; simpl.
  - unfold mbind, M_bind. pose proof (world_ok_createNode c w Hw).
    destruct (createNode c w); simpl in *; assumption.
  - unfold mbind, M_bind. apply (world_ok_alloc w _ Hw). simpl. lia.
  - apply world_ok_removeNode, Hw.
  - eapply world_ok_frame; [exact Hw|apply frames_broadcast].
  - eapply world_ok_frame; [exact Hw|apply frames_receive].
  - eapply world_ok_frame; [exact Hw|apply frames_sync].
  - unfold onBroadcast, add_broadcast_listener. unfold_M.
    destruct (heap w !! l) as [n|] eqn:Hn; simpl; [|exact Hw].
    eapply world_ok_put; [exact Hw|exact Hn|reflexivity| |].
    + simpl. induction (on_broadcast n) as [|[|] ls IH]; simpl; auto.
    + destruct Hw as (_ & _ & W3 & _). simpl. eapply W3, Hn.
  - unfold onMessage. unfold_M.
    destruct (heap w !! l) as [n|] eqn:Hn; simpl; [|exact Hw].
    eapply world_ok_put; [exact Hw|exact Hn|reflexivity|reflexivity|].
    destruct Hw as (_ & _ & W3 & _). simpl. eapply W3, Hn.
  - unfold onError. unfold_M.
    destruct (heap w !! l) as [n|] eqn:Hn; simpl; [|exact Hw].
    eapply world_ok_put; [exact Hw|exact Hn|reflexivity|reflexivity|].
    destruct Hw as (_ & _ & W3 & _). simpl. eapply W3, Hn.
  - unfold onSync. unfold_M.
    destruct (heap w !! l) as [n|] eqn:Hn; simpl; [|exact Hw].
    eapply world_ok_put; [exact Hw|exact Hn|reflexivity|reflexivity|].
    destruct Hw as (_ & _ & W3 & _). simpl. eapply W3, Hn.
Qed.

Lemma world_ok_exec (ops : list Op) : forall w, world_ok w -> world_ok (exec ops w).
Proof.
  unfold exec. induction ops as [|op ops IH]; simpl; intros w Hw; [exact Hw|].
  apply IH, world_ok_run_op, Hw.
Qed.

Lemma world_ok_empty : world_ok empty_world.
Proof.
  unfold world_ok; simpl. split; [constructor|]. split; [intros id l []|]. split.
  - intros l n H. rewrite lookup_empty in H. discriminate.
  - intros l _. apply lookup_empty.
Qed.

Lemma reachable_world_ok (w : World) : reachable w -> world_ok w.
Proof. intros [ops ->]. apply world_ok_exec, world_ok_empty. Qed.

(** ** C5 *)

Definition steps_mono (w w' : World) : Prop :=
  forall l n, heap w !! l = Some n ->
    exists n', heap w' !! l = Some n' /\ globalStep n <= globalStep n'.

Lemma steps_mono_frame (w w' : World) : frame w w' -> steps_mono w w'.
Proof.
  intros (_ & _ & _ & F) l n Hn. destruct (F l n Hn) as (n' & Hn' & Hf).
  exists n'. split; [exact Hn'|apply Hf].
Qed.

Lemma steps_mono_trans (w1 w2 w3 : World) :
  steps_mono w1 w2 -> steps_mono w2 w3 -> steps_mono w1 w3.
Proof.
  intros H1 H2 l n Hn. destruct (H1 l n Hn) as (n2 & Hn2 & Le2).
  destruct (H2 l n2 Hn2) as (n3 & Hn3 & Le3). exists n3. split; [exact Hn3|lia].
Qed.

Lemma steps_mono_put (w : World) (l : nat) (n n' : MeshNode) :
  heap w !! l = Some n -> globalStep n' = globalStep n ->
  steps_mono w (set_heap (<[l := n']> (heap w)) w).
Proof.
  intros Hn Hs l0 n0 Hn0. simpl. destruct (decide (l = l0)) as [<-|Hne].
  - rewrite lookup_insert_eq. exists n'. split; [reflexivity|].
    rewrite Hn in Hn0. injection Hn0 as <-. lia.
  - rewrite lookup_insert_ne by exact Hne. exists n0. split; [exact Hn0|lia].
Qed.

Lemma steps_mono_run_op (op : Op) (w : World) :
  world_ok w -> steps_mono w (res_world (run_op op w)).
Proof.
  intros Hw. pose proof Hw as (_ & _ & _ & W4).
  destruct op as [c|c|i|l d|l m|l t|l k|l k|l k|l k]; simpl.
  - unfold mbind, M_bind. rewrite createNode_result. simpl. intros l0 n0 Hn0. simpl.
    assert (l0 <> next_loc w) by (intros ->; rewrite W4 in Hn0 by lia; discriminate).
    rewrite !lookup_insert_ne by congruence. exists n0. split; [exact Hn0|lia].
  - unfold mbind, M_bind, alloc. simpl. intros l0 n0 Hn0. simpl.
    assert (l0 <> next_loc w) by (intros ->; rewrite W4 in Hn0 by lia; discriminate).
    rewrite lookup_insert_ne by congruence. exists n0. split; [exact Hn0|lia].
  - intros l0 n0 Hn0. exists n0. split; [exact Hn0|lia].
  - apply steps_mono_frame, frames_broadcast.
  - apply steps_mono_frame, frames_receive.
  - apply steps_mono_frame, frames_sync.
  - unfold onBroadcast, add_broadcast_listener. unfold_M.
    destruct (heap w !! l) as [n|] eqn:Hn; simpl.
    + eapply steps_mono_put; [exact Hn|reflexivity].
    + intros l0 n0 Hn0. exists n0. split; [exact Hn0|lia].
  - unfold onMessage. unfold_M.
    destruct (heap w !! l) as [n|] eqn:Hn; simpl.
    + eapply steps_mono_put; [exact Hn|reflexivity].
    + intros l0 n0 Hn0. exists n0. split; [exact Hn0|lia].
  - unfold onError. unfold_M.
    destruct (heap w !! l) as [n|] eqn:Hn; simpl.
    + eapply steps_mono_put; [exact Hn|reflexivity].
    + intros l0 n0 Hn0. exists n0. split; [exact Hn0|lia].
  - unfold onSync. unfold_M.
    destruct (heap w !! l) as [n|] eqn:Hn; simpl.
    + eapply steps_mono_put; [exact Hn|reflexivity].
    + intros l0 n0 Hn0. exists n0. split; [exact Hn0|lia].
Qed.

Lemma steps_mono_exec (ops : list Op) : forall w, world_ok w -> steps_mono w (exec ops w).
Proof.
  unfold exec. induction ops as [|op ops IH]; simpl; intros w Hw.
  - intros l n Hn. exists n. split; [exact Hn|lia].
  - eapply steps_mono_trans; [apply steps_mono_run_op, Hw|].
    apply IH, world_ok_run_op, Hw.
Qed.

(** C5: in a reachable world, no sequence of calls (broadcasts, receives,
    syncs, and the other calls of the API, each run to completion or to a
    throw) makes any node's [globalStep] smaller. *)
Theorem globalStep_monotone (w : World) (ops : list Op) (l : nat) (n : MeshNode) :
  reachable w -> node_at w l = Some n ->
  exists n', node_at (exec ops w) l = Some n' /\ globalStep n <= globalStep n'.
Proof.
  intros Hr Hn. apply (steps_mono_exec ops w (reachable_world_ok w Hr) l n Hn).
Qed.

Lemma globalStep_monotone_witness :
  exists n', node_at (exec [OpBroadcast 0 "x"; OpReceive 0 (Message.mk "p" 0 (Num 7) "");
                            OpSync 0 5; OpSync 0 2]
                           (exec [OpCreateNode (NodeConfig.mk "n" 7 100)] empty_world)) 0 = Some n' /\
             0 <= globalStep n'.
Proof.
  apply (globalStep_monotone _ _ 0
           {| nodeId := "n"; pattern := new_PatternGenerator 7 100; globalStep := 0;
              on_broadcast := [NetworkRoute]; on_message := []; on_error := []; on_sync := [] |}).
  - exists [OpCreateNode (NodeConfig.mk "n" 7 100)]. reflexivity.
  - vm_compute. reflexivity.
Defined.

(** ** Delivery of a broadcast *)

Lemma bind_Ret {A B : Type} (c : M A) (k : A -> M B) (w : World) (a : A) (w' : World) :
  c w = Ret a w' -> (x ← c; k x) w = k a w'.
Proof. intros H. unfold mbind, M_bind. rewrite H. reflexivity. Qed.

Lemma get_node_ok (l : nat) (n : MeshNode) (w : World) :
  heap w !! l = Some n -> get_node l w = Ret n w.
Proof. intros H. unfold get_node. rewrite H. reflexivity. Qed.

Lemma node_computeValue_ok (l : nat) (s : Z) (n : MeshNode) (v : num) (g' : PatternGenerator)
    (w : World) :
  heap w !! l = Some n -> computeValue (pattern n) s = Some (v, g') ->
  node_computeValue l s w = Ret v (set_heap (<[l := set_pattern n g']> (heap w)) w).
Proof.
  intros Hn E. unfold node_computeValue. rewrite (bind_Ret _ _ _ n w) by (apply get_node_ok, Hn).
  rewrite E. reflexivity.
Qed.

(** The entries [forEach] calls [receive] on. *)
Definition route_targets (entries : list (string * nat)) (sender : string) : list (string * nat) :=
  List.filter (fun e => negb (String.eqb (fst e) sender)) entries.

Lemma NoDup_fst_unique (es : list (string * nat)) (k : string) (a b : nat) :
  List.NoDup (map fst es) -> In (k, a) es -> In (k, b) es -> a = b.
Proof.
  induction es as [|[k' v'] es IH]; simpl; [tauto|]. intros Hnd Ha Hb.
  inversion Hnd as [|? ? Hnin Hnd']; subst.
  destruct Ha as [Ha|Ha], Hb as [Hb|Hb].
  - congruence.
  - injection Ha as -> ->. exfalso. apply Hnin. apply (in_map fst _ _ Hb).
  - injection Hb as -> ->. exfalso. apply Hnin. apply (in_map fst _ _ Ha).
  - apply IH; assumption.
Qed.

Lemma NoDup_snd_of (es : list (string * nat)) (f : nat -> option string) :
  List.NoDup (map fst es) -> (forall id l, In (id, l) es -> f l = Some id) ->
  List.NoDup (map snd es).
Proof.
  induction es as [|[k v] es IH]; simpl; intros Hnd Hf; [constructor|].
  inversion Hnd as [|? ? Hnin Hnd']; subst. constructor.
  - intros Hin. apply in_map_iff in Hin as ([k' v'] & Heq & Hin). simpl in Heq. subst v'.
    assert (k' = k) by (pose proof (Hf k v (or_introl eq_refl)); pose proof (Hf k' v (or_intror Hin));
                        congruence).
    subst k'. apply Hnin, (in_map fst _ _ Hin).
  - apply IH; [exact Hnd'|]. intros id l Hin. apply Hf. right. exact Hin.
Qed.

Lemma NoDup_snd_filter (p : string * nat -> bool) (es : list (string * nat)) :
  List.NoDup (map snd es) -> List.NoDup (map snd (List.filter p es)).
Proof.
  induction es as [|e es IH]; simpl; intros Hnd; [constructor|].
  inversion Hnd as [|? ? Hnin Hnd']; subst. destruct (p e); simpl; [constructor|auto].
  - intros Hin. apply Hnin. apply in_map_iff in Hin as (e' & Heq & Hin).
    apply filter_In in Hin as [Hin _]. rewrite <- Heq. apply in_map, Hin.
  - apply IH, Hnd'.
Qed.

Lemma world_ok_NoDup_snd (w : World) : world_ok w -> List.NoDup (map snd (nodes w)).
Proof.
  intros (W1 & W2 & _). apply (NoDup_snd_of _ (fun l => option_map nodeId (heap w !! l)) W1).
  intros id l Hin. destruct (W2 id l Hin) as (n & Hn & Hid & _). rewrite Hn. simpl. congruence.
Qed.

Lemma in_route_targets (es : list (string * nat)) (s : string) (l : nat) :
  In l (map snd (route_targets es s)) <-> exists id, In (id, l) es /\ id <> s.
Proof.
  unfold route_targets. rewrite in_map_iff. split.
  - intros ([id l'] & Heq & Hin). simpl in Heq. subst l'. apply filter_In in Hin as [Hin Hp].
    exists id. split; [exact Hin|]. simpl in Hp. apply negb_true_iff, String.eqb_neq in Hp. exact Hp.
  - intros (id & Hin & Hne). exists (id, l). split; [reflexivity|]. apply filter_In.
    split; [exact Hin|]. simpl. apply negb_true_iff, String.eqb_neq, Hne.
Qed.

(** ** What a call that returns has delivered *)

Lemma bind_Ret_inv {A B : Type} (c : M A) (k : A -> M B) (w : World) (b : B) (w' : World) :
  mbind k c w = Ret b w' -> exists a w1, c w = Ret a w1 /\ k a w1 = Ret b w'.
Proof.
  unfold mbind, M_bind. destruct (c w) as [a w1|w1]; [|discriminate].
  intros H. exists a, w1. split; [reflexivity|exact H].
Qed.

(** [c] leaves the log of [receive] calls alone when it returns. *)
Definition keeps_received {A : Type} (c : M A) : Prop :=
  forall w a w', c w = Ret a w' -> received w' = received w.

Lemma keeps_received_app {A : Type} (c : M A) (w : World) (a : A) (w' : World) :
  c w = Ret a w' -> keeps_received c -> received w' = received w.
Proof. intros E K. exact (K w a w' E). Qed.

Lemma keeps_received_bind {A B : Type} (c : M A) (k : A -> M B) :
  keeps_received c -> (forall a, keeps_received (k a)) -> keeps_received (mbind k c).
Proof.
  intros Hc Hk w b w' E. apply bind_Ret_inv in E as (a & w1 & E1 & E2).
  rewrite (Hk a w1 b w' E2). exact (Hc w a w1 E1).
Qed.

Lemma keeps_received_ret {A : Type} (a : A) : keeps_received (mret a).
Proof. intros w b w' E. unfold mret, M_ret in E. congruence. Qed.

Lemma keeps_received_throw {A : Type} : keeps_received (@throw A).
Proof. intros w a w' E. unfold throw in E. discriminate. Qed.

Lemma keeps_received_get_node (l : nat) : keeps_received (get_node l).
Proof. intros w a w' E. unfold get_node in E. destruct (heap w !! l); congruence. Qed.

Lemma keeps_received_modify (f : World -> World) :
  (forall w, received (f w) = received w) -> keeps_received (modify f).
Proof. intros Hf w a w' E. unfold modify in E. inversion E; subst. apply Hf. Qed.

Ltac keeps_received_tac :=
  repeat first
    [ apply keeps_received_bind; intros
    | apply keeps_received_ret | apply keeps_received_throw | apply keeps_received_get_node
    | (apply keeps_received_modify; intros; reflexivity)
    | progress unfold put_node, emit
    | case_match ].

Lemma keeps_received_node_computeValue (l : nat) (s : Z) : keeps_received (node_computeValue l s).
Proof. unfold node_computeValue. keeps_received_tac. Qed.

Lemma keeps_received_sync (l : nat) (t : Z) : keeps_received (sync l t).
Proof. unfold sync. keeps_received_tac. Qed.

Lemma receive_ret (l : nat) (m : Message.t) (w w' : World) :
  receive l m w = Ret tt w' -> received w' = received w ++ [(l, m)].
Proof.
  unfold receive. intros E. apply bind_Ret_inv in E as (u & w1 & E1 & E2).
  unfold modify in E1. inversion E1; subst. cbv beta in E2.
  eapply keeps_received_app in E2.
  - rewrite E2. reflexivity.
  - keeps_received_tac; first [apply keeps_received_node_computeValue | apply keeps_received_sync].
Qed.

Lemma forEach_route_ret (entries : list (string * nat)) (m : Message.t) : forall w w',
  forEach_route entries m w = Ret tt w' ->
  received w' = received w ++ map (fun e => (snd e, m)) (route_targets entries (Message.senderId m)).
Proof.
  unfold route_targets. induction entries as [|[nid l] rest IH]; simpl; intros w w' E.
  - unfold mret, M_ret in E. inversion E; subst. rewrite app_nil_r. reflexivity.
  - apply bind_Ret_inv in E as ([] & w1 & E1 & E2). rewrite (IH w1 w' E2).
    destruct (String.eqb nid (Message.senderId m)); simpl in *.
    + unfold mret, M_ret in E1. inversion E1; subst. reflexivity.
    + rewrite (receive_ret l m w w1 E1), <- app_assoc. reflexivity.
Qed.

Lemma dispatch_broadcast_ret (s : nat) (m : Message.t) (ls : list Listener) : forall w w',
  dispatch_broadcast s m ls w = Ret tt w' ->
  received w' = received w ++
    concat (repeat (map (fun e => (snd e, m)) (route_targets (nodes w) (Message.senderId m)))
                   (count_route ls)).
Proof.
  induction ls as [|[|k] ls IH]; simpl; intros w w' E.
  - unfold mret, M_ret in E. inversion E; subst. rewrite app_nil_r. reflexivity.
  - apply bind_Ret_inv in E as ([] & w1 & E1 & E2).
    pose proof (frames_network_broadcast m s w) as F1. rewrite E1 in F1.
    destruct F1 as (N1 & _). simpl in N1.
    rewrite (IH w1 w' E2), N1. unfold network_broadcast in E1.
    rewrite (forEach_route_ret _ m w w1 E1), <- app_assoc. reflexivity.
  - apply bind_Ret_inv in E as ([] & w1 & E1 & E2).
    unfold modify in E1. inversion E1; subst. exact (IH _ w' E2).
Qed.

Lemma node_computeValue_ret (l : nat) (s : Z) (w w' : World) (v : num) :
  node_computeValue l s w = Ret v w' ->
  exists n g', heap w !! l = Some n /\ computeValue (pattern n) s = Some (v, g') /\
    w' = set_heap (<[l := set_pattern n g']> (heap w)) w.
Proof.
  unfold node_computeValue. intros E. apply bind_Ret_inv in E as (n & w0 & E0 & E1).
  unfold get_node in E0. destruct (heap w !! l) as [n0|] eqn:Hn; [|discriminate].
  inversion E0; subst. cbv beta in E1.
  destruct (computeValue (pattern n) s) as [[v0 g']|] eqn:Ec; [|discriminate].
  apply bind_Ret_inv in E1 as ([] & w1 & E2 & E3).
  unfold put_node, modify in E2. inversion E2; subst.
  unfold mret, M_ret in E3. inversion E3; subst.
  exists n, g'. split; [reflexivity|]. split; [exact Ec|reflexivity].
Qed.

(** A [broadcast] that returns has passed its message to [receive] once
    per network route of the sender and per [forEach] target. *)
Lemma broadcast_ret (X : nat) (d : string) (w w' : World) :
  broadcast X d w = Ret tt w' ->
  exists x v, heap w !! X = Some x /\
    received w' = received w ++
      concat (repeat (map (fun e => (snd e, Message.mk (nodeId x) (globalStep x) v d))
                          (route_targets (nodes w) (nodeId x)))
                     (count_route (on_broadcast x))).
Proof.
  unfold broadcast. intros E.
  apply bind_Ret_inv in E as (x & w0 & E0 & E). unfold get_node in E0.
  destruct (heap w !! X) as [x0|] eqn:Hx; [|discriminate]. inversion E0; subst. cbv beta in E.
  apply bind_Ret_inv in E as (v & w2 & E2 & E).
  destruct (node_computeValue_ret _ _ _ _ _ E2) as (n & g' & Hn & _ & ->).
  rewrite Hx in Hn. injection Hn as <-. cbv beta in E.
  apply bind_Ret_inv in E as (n1 & w3 & E3 & E).
  unfold get_node, set_heap in E3. cbn [heap] in E3. rewrite lookup_insert_eq in E3.
  inversion E3; subst. cbv beta in E.
  apply bind_Ret_inv in E as ([] & w4 & E4 & E5).
  unfold emit_broadcast in E4. apply bind_Ret_inv in E4 as ([] & w5 & E6 & E7).
  unfold modify in E6. inversion E6; subst.
  cbv beta in E7. apply dispatch_broadcast_ret in E7.
  eapply keeps_received_app in E5; [|unfold incrementStep; keeps_received_tac].
  exists x, v. split; [reflexivity|]. rewrite E5, E7. reflexivity.
Qed.

(** ** C7 *)

(** C7 (counterexample): A, B and C registered in this order, B with a
    reset interval of 0. A's broadcast reaches B, whose [computeValue]
    throws a [RangeError]; the throw leaves [forEach] and [broadcast], so C,
    registered and distinct from A, is never passed to [receive]. *)
Example broadcast_aborted_by_throwing_receiver :
  exists w', broadcast 0 "x"
               (exec [OpCreateNode (NodeConfig.mk "A" 7 100); OpCreateNode (NodeConfig.mk "B" 7 0);
                      OpCreateNode (NodeConfig.mk "C" 7 100)] empty_world) = Throw w' /\
    nodes w' = [("A", 0%nat); ("B", 1%nat); ("C", 2%nat)] /\
    received w' = [(1%nat, Message.mk "A" 0 (Num 7) "x")].
Proof. vm_compute. eexists. split; [reflexivity|]. split; reflexivity. Qed.

(** C7: in a reachable world, let X be a registered node. If X's
    [broadcast] returns normally, then before it returned [receive] has
    been called on each registered node other than X exactly once, never
    on X and never on an unregistered node, each time with the same
    message. (The call can also throw, and then the nodes after the
    thrower are not reached: a receiver, or X itself, whose
    [computeValue] throws, with interval 0 or a recursion deeper than the
    engine's stack.) *)
Theorem broadcast_delivers_once (w w' : World) (X : nat) (x : MeshNode) (d : string) :
  reachable w -> node_at w X = Some x -> In (nodeId x, X) (nodes w) ->
  broadcast X d w = Ret tt w' ->
  exists v rs, received w' = received w ++ rs /\
    (forall e, In e rs -> snd e = Message.mk (nodeId x) (globalStep x) v d) /\
    List.NoDup (map fst rs) /\
    (forall l, In l (map fst rs) <-> (exists id, In (id, l) (nodes w)) /\ l <> X).
Proof.
  intros Hr Hx HX E. pose proof (reachable_world_ok w Hr) as Hw.
  pose proof Hw as (W1 & W2 & W3 & W4).
  destruct (W2 _ _ HX) as (x' & Hx' & _ & Hc). unfold node_at in Hx.
  rewrite Hx in Hx'. injection Hx' as <-.
  destruct (broadcast_ret X d w w' E) as (x' & v & Hx' & Hrec).
  rewrite Hx in Hx'. injection Hx' as <-.
  rewrite Hc in Hrec. simpl in Hrec. rewrite app_nil_r in Hrec.
  exists v, (map (fun e => (snd e, Message.mk (nodeId x) (globalStep x) v d))
                 (route_targets (nodes w) (nodeId x))).
  split; [exact Hrec|].
  rewrite map_map. simpl. split; [|split].
  - intros e Hin. apply in_map_iff in Hin as (e' & <- & _). reflexivity.
  - apply NoDup_snd_filter, world_ok_NoDup_snd, Hw.
  - intros l. rewrite in_route_targets. split.
    + intros (id & Hin & Hne). split; [eauto|]. intros ->.
      destruct (W2 _ _ Hin) as (n & Hn & Hid & _). rewrite Hx in Hn. injection Hn as <-.
      congruence.
    + intros ((id & Hin) & Hne). exists id. split; [exact Hin|]. intros ->.
      apply Hne. exact (NoDup_fst_unique _ _ _ _ W1 Hin HX).
Qed.

Lemma broadcast_delivers_once_witness :
  exists w', broadcast 0 "x" (exec [OpCreateNode (NodeConfig.mk "A" 7 100); OpCreateNode (NodeConfig.mk "B" 7 100);
                                   OpCreateNode (NodeConfig.mk "C" 3 5)] empty_world) = Ret tt w' /\
  exists v rs,
    received w' = received (exec [OpCreateNode (NodeConfig.mk "A" 7 100);
                                  OpCreateNode (NodeConfig.mk "B" 7 100);
                                  OpCreateNode (NodeConfig.mk "C" 3 5)] empty_world) ++ rs /\
    (forall e, In e rs -> snd e = Message.mk "A" 0 v "x") /\
    List.NoDup (map fst rs) /\
    (forall l, In l (map fst rs) <->
       (exists id, In (id, l) (nodes (exec [OpCreateNode (NodeConfig.mk "A" 7 100);
                                            OpCreateNode (NodeConfig.mk "B" 7 100);
                                            OpCreateNode (NodeConfig.mk "C" 3 5)] empty_world))) /\
       l <> 0%nat).
Proof.
  destruct (broadcast 0 "x" (exec [OpCreateNode (NodeConfig.mk "A" 7 100);
                                  OpCreateNode (NodeConfig.mk "B" 7 100);
                                  OpCreateNode (NodeConfig.mk "C" 3 5)] empty_world))
    as [[] w'|w'] eqn:E; [|vm_compute in E; discriminate].
  exists w'. split; [reflexivity|].
  apply (broadcast_delivers_once _ w' 0
           {| nodeId := "A"; pattern := new_PatternGenerator 7 100; globalStep := 0;
              on_broadcast := [NetworkRoute]; on_message := []; on_error := []; on_sync := [] |}).
  - exists [OpCreateNode (NodeConfig.mk "A" 7 100); OpCreateNode (NodeConfig.mk "B" 7 100);
            OpCreateNode (NodeConfig.mk "C" 3 5)]. reflexivity.
  - vm_compute. reflexivity.
  - vm_compute. left. reflexivity.
  - exact E.
Defined.

(** ** C9 *)

Lemma map_delete_removes (es : list (string * nat)) (k k' : string) (v : nat) :
  List.NoDup (map fst es) -> In (k', v) (map_delete es k) -> k' <> k.
Proof.
  induction es as [|[k0 v0] es IH]; simpl; intros Hnd Hin; [contradiction|].
  inversion Hnd as [|? ? Hnin Hnd']; subst.
  destruct (String.eqb k0 k) eqn:E.
  - apply String.eqb_eq in E. subst k0. intros ->. apply Hnin, (in_map fst _ _ Hin).
  - apply String.eqb_neq in E. destruct Hin as [Hin|Hin].
    + injection Hin as -> ->. exact E.
    + apply IH; assumption.
Qed.

(** C9 (counterexample): as for C7, a registered receiver whose interval
    is 0 throws, and the nodes after it in the registry miss a broadcast
    from the removed node A: C is still registered but never passed to
    [receive]. *)
Example removed_broadcast_aborted :
  exists w', broadcast 0 "x"
               (exec [OpCreateNode (NodeConfig.mk "A" 7 100); OpCreateNode (NodeConfig.mk "B" 7 0);
                      OpCreateNode (NodeConfig.mk "C" 7 100); OpRemoveNode "A"] empty_world) = Throw w' /\
    nodes w' = [("B", 1%nat); ("C", 2%nat)] /\
    received w' = [(1%nat, Message.mk "A" 0 (Num 7) "x")].
Proof. vm_compute. eexists. split; [reflexivity|]. split; reflexivity. Qed.

(** C9: let X be registered in a reachable world, and let [removeNode]
    be called with X's id. If X's later [broadcast] returns normally, each
    node still registered has been passed to [receive] exactly once, with
    the same message, and no other node has: the network route X got from
    [createNode] stays in place. (As in C7, the call can also throw, and
    then the nodes after the thrower are not reached.) *)
Theorem removed_node_still_delivers (w w1 w' : World) (X : nat) (x : MeshNode) (d : string) :
  reachable w -> node_at w X = Some x -> In (nodeId x, X) (nodes w) ->
  removeNode (nodeId x) w = Ret tt w1 -> broadcast X d w1 = Ret tt w' ->
  exists v rs, received w' = received w1 ++ rs /\
    (forall e, In e rs -> snd e = Message.mk (nodeId x) (globalStep x) v d) /\
    List.NoDup (map fst rs) /\
    (forall l, In l (map fst rs) <-> exists id, In (id, l) (nodes w1)).
Proof.
  intros Hr Hx HX Hrm E. pose proof (reachable_world_ok w Hr) as Hw.
  pose proof Hw as (W1 & W2 & _).
  destruct (W2 _ _ HX) as (x' & Hx' & _ & Hc). unfold node_at in Hx.
  rewrite Hx in Hx'. injection Hx' as <-.
  pose proof (world_ok_removeNode (nodeId x) w Hw) as Hw1. rewrite Hrm in Hw1. simpl in Hw1.
  unfold removeNode, modify in Hrm. injection Hrm as <-.
  destruct (broadcast_ret X d _ w' E) as (x' & v & Hx' & Hrec).
  change (heap (set_nodes (map_delete (nodes w) (nodeId x)) w)) with (heap w) in Hx'.
  rewrite Hx in Hx'. injection Hx' as <-.
  rewrite Hc in Hrec. simpl in Hrec. rewrite app_nil_r in Hrec.
  eexists v, (map (fun e => (snd e, Message.mk (nodeId x) (globalStep x) v d)) (route_targets _ (nodeId x))).
  split; [exact Hrec|].
  rewrite map_map. simpl. split; [|split].
  - intros e Hin. apply in_map_iff in Hin as (e' & <- & _). reflexivity.
  - apply NoDup_snd_filter. exact (world_ok_NoDup_snd _ Hw1).
  - intros l. rewrite in_route_targets. split.
    + intros (id & Hin & _). eauto.
    + intros (id & Hin). exists id. split; [exact Hin|].
      exact (map_delete_removes _ _ _ _ W1 Hin).
Qed.

Lemma removed_node_still_delivers_witness :
  exists w', broadcast 0 "x" (exec [OpCreateNode (NodeConfig.mk "A" 7 100); OpCreateNode (NodeConfig.mk "B" 7 100);
                                   OpCreateNode (NodeConfig.mk "C" 3 5); OpRemoveNode "A"] empty_world)
             = Ret tt w' /\
  exists v rs,
    received w' = received (exec [OpCreateNode (NodeConfig.mk "A" 7 100);
                                  OpCreateNode (NodeConfig.mk "B" 7 100);
                                  OpCreateNode (NodeConfig.mk "C" 3 5); OpRemoveNode "A"] empty_world) ++ rs /\
    (forall e, In e rs -> snd e = Message.mk "A" 0 v "x") /\
    List.NoDup (map fst rs) /\
    (forall l, In l (map fst rs) <->
       exists id, In (id, l) (nodes (exec [OpCreateNode (NodeConfig.mk "A" 7 100);
                                           OpCreateNode (NodeConfig.mk "B" 7 100);
                                           OpCreateNode (NodeConfig.mk "C" 3 5); OpRemoveNode "A"]
                                          empty_world))).
Proof.
  destruct (broadcast 0 "x" (exec [OpCreateNode (NodeConfig.mk "A" 7 100);
                                  OpCreateNode (NodeConfig.mk "B" 7 100);
                                  OpCreateNode (NodeConfig.mk "C" 3 5); OpRemoveNode "A"] empty_world))
    as [[] w'|w'] eqn:E; [|vm_compute in E; discriminate].
  exists w'. split; [reflexivity|].
  apply (removed_node_still_delivers
           (exec [OpCreateNode (NodeConfig.mk "A" 7 100); OpCreateNode (NodeConfig.mk "B" 7 100);
                  OpCreateNode (NodeConfig.mk "C" 3 5)] empty_world) _ w' 0
           {| nodeId := "A"; pattern := new_PatternGenerator 7 100; globalStep := 0;
              on_broadcast := [NetworkRoute]; on_message := []; on_error := []; on_sync := [] |}).
  - exists [OpCreateNode (NodeConfig.mk "A" 7 100); OpCreateNode (NodeConfig.mk "B" 7 100);
            OpCreateNode (NodeConfig.mk "C" 3 5)]. reflexivity.
  - vm_compute. reflexivity.
  - vm_compute. left. reflexivity.
  - vm_compute. reflexivity.
  - exact E.
Defined.

(** ** C3 *)

(** C3 (counterexample): A and B with seed 7 and interval 100, a callback
    5 on B's ['message'] event, A broadcasts at step 0. B's [receive] runs
    and the callback is called once, but [sync(0)] does nothing at B's step
    0, so B's [globalStep] stays 0 and B emits no ['sync'] event, where
    the synchronisation demo expects B to broadcast next at step 1. *)
Example two_node_broadcast_B_step_zero :
  exists nB,
    node_at (exec [OpCreateNode (NodeConfig.mk "A" 7 100); OpCreateNode (NodeConfig.mk "B" 7 100);
                   OpOnMessage 1 5; OpBroadcast 0 "x"] empty_world) 1 = Some nB /\
    nodeId nB = "B" /\ globalStep nB = 0.
Proof. vm_compute. eexists. split; [reflexivity|]. split; reflexivity. Qed.

(** * Further properties of the code *)

(** ** PatternGenerator: the sequence in closed form *)

(** One step of the recursion: [collapseDigits(previousValue * seed)]. *)
Definition step_fn (s : Z) (x : num) : num := collapseDigits (js_mul x (Num s)).

(** The value [n] steps after a reset step. *)
Fixpoint pattern_iter (n : nat) (s : Z) : num :=
  match n with
  | O => Num s
  | S n' => step_fn s (pattern_iter n' s)
  end.

Lemma is_phase_reset_mod (k i : Z) :
  i <> 0 -> is_phase_reset k i = (k mod Z.abs i =? 0).
Proof.
  intros Hi. unfold is_phase_reset. destruct (i =? 0) eqn:E; [apply Z.eqb_eq in E; lia|].
  apply eq_iff_eq_true. rewrite !Z.eqb_eq, Z.rem_divide by exact Hi.
  rewrite Z.mod_divide by lia. rewrite Z.divide_abs_l. reflexivity.
Qed.

Lemma mod_pred (k a : Z) : 0 < a -> k mod a <> 0 -> (k - 1) mod a = k mod a - 1.
Proof.
  intros Ha Hr. pose proof (Z.mod_pos_bound k a Ha).
  symmetry. apply Z.mod_unique with (q := k / a); [left; lia|].
  pose proof (Z.div_mod k a ltac:(lia)). lia.
Qed.

Lemma pattern_value_closed (f : nat) : forall (s i k : Z) (v : num),
  i <> 0 -> pattern_value f s i k = Some v ->
  v = pattern_iter (Z.to_nat (k mod Z.abs i)) s.
Proof.
  induction f as [|f IH]; intros s i k v Hi H; simpl in H;
    rewrite is_phase_reset_mod in H by exact Hi;
    destruct (k mod Z.abs i =? 0) eqn:Hr.
  - apply Z.eqb_eq in Hr. rewrite Hr. injection H as <-. reflexivity.
  - discriminate.
  - apply Z.eqb_eq in Hr. rewrite Hr. injection H as <-. reflexivity.
  - apply Z.eqb_neq in Hr.
    destruct (pattern_value f s i (k - 1)) as [pv|] eqn:E; [|discriminate].
    injection H as <-. rewrite (IH s i (k - 1) pv Hi E).
    rewrite mod_pred by lia. pose proof (Z.mod_pos_bound k (Z.abs i) ltac:(lia)).
    replace (Z.to_nat (k mod Z.abs i)) with (S (Z.to_nat (k mod Z.abs i - 1))) by lia.
    reflexivity.
Qed.

(** A value returned for a non-zero interval is the seed advanced
    [step mod |interval|] times. *)
Lemma computeValue_value_closed (g g' : PatternGenerator) (k : Z) (v : num) :
  gen_reachable g -> phaseResetInterval g <> 0 -> computeValue g k = Some (v, g') ->
  v = pattern_iter (Z.to_nat (k mod Z.abs (phaseResetInterval g))) (seed g).
Proof.
  intros Hg Hi E. destruct (computeValue_in_sequence g g' k v Hg E) as [f Hf].
  exact (pattern_value_closed f _ _ _ _ Hi Hf).
Qed.

(** X1: for a generator in a reachable state with a non-zero interval
    (negative ones included), a safe step [0 <= step <= 2^53 - 1] and a
    seed whose square is at most 2^53, a value [computeValue(step)]
    returns is the seed advanced [step mod |interval|] times by
    [x => collapseDigits(x * seed)]: the reset step is the nearest multiple
    of the interval at or below [step].  The bounds keep [step - 1] and
    every product exact in the engine. *)
Theorem computeValue_closed_form (g g' : PatternGenerator) (k : Z) (v : num) :
  gen_reachable g -> phaseResetInterval g <> 0 ->
  0 <= k <= MAX_SAFE_INTEGER -> seed g * seed g <= 2 ^ 53 ->
  computeValue g k = Some (v, g') ->
  v = pattern_iter (Z.to_nat (k mod Z.abs (phaseResetInterval g))) (seed g).
Proof. intros Hg Hi _ _ E. exact (computeValue_value_closed g g' k v Hg Hi E). Qed.

Lemma computeValue_closed_form_witness :
  exists v g', computeValue (new_PatternGenerator 7 (-3)) 5 = Some (v, g') /\
    v = pattern_iter (Z.to_nat (5 mod Z.abs (phaseResetInterval (new_PatternGenerator 7 (-3)))))
          (seed (new_PatternGenerator 7 (-3))).
Proof.
  destruct (computeValue (new_PatternGenerator 7 (-3)) 5) as [[v g']|] eqn:E;
    [|vm_compute in E; discriminate].
  exists v, g'. split; [reflexivity|].
  apply (computeValue_closed_form _ g' 5 v);
    [constructor|discriminate|unfold MAX_SAFE_INTEGER; lia|simpl; lia|exact E].
Defined.

Lemma mod_abs_add (k i : Z) : i <> 0 -> (k + i) mod Z.abs i = k mod Z.abs i.
Proof.
  intros Hi. destruct (Z.lt_ge_cases 0 i).
  - rewrite Z.abs_eq by lia. rewrite <- (Z.mul_1_l i) at 1. apply Z.mod_add. lia.
  - rewrite Z.abs_neq by lia. replace (k + i) with (k + (-1) * (- i)) by lia.
    apply Z.mod_add. lia.
Qed.

(** X2: the values are periodic with the interval: from the same
    generator state, when [computeValue(step)] and
    [computeValue(step + interval)] both return, at safe steps
    [0 <= step, step + interval <= 2^53 - 1], they return the same
    value. *)
Theorem computeValue_periodic (g g1 g2 : PatternGenerator) (k : Z) (v1 v2 : num) :
  gen_reachable g -> phaseResetInterval g <> 0 ->
  0 <= k <= MAX_SAFE_INTEGER -> 0 <= k + phaseResetInterval g <= MAX_SAFE_INTEGER ->
  computeValue g k = Some (v1, g1) ->
  computeValue g (k + phaseResetInterval g) = Some (v2, g2) ->
  v1 = v2.
Proof.
  intros Hg Hi _ _ E1 E2.
  rewrite (computeValue_value_closed g g1 k v1 Hg Hi E1).
  rewrite (computeValue_value_closed g g2 _ v2 Hg Hi E2).
  rewrite mod_abs_add by exact Hi. reflexivity.
Qed.

Lemma computeValue_periodic_witness :
  exists v1 v2 g1 g2, computeValue (new_PatternGenerator 7 5) 3 = Some (v1, g1) /\
    computeValue (new_PatternGenerator 7 5) (3 + phaseResetInterval (new_PatternGenerator 7 5)) =
    Some (v2, g2) /\ v1 = v2.
Proof.
  destruct (computeValue (new_PatternGenerator 7 5) 3) as [[v1 g1]|] eqn:E1;
    [|vm_compute in E1; discriminate].
  destruct (computeValue (new_PatternGenerator 7 5) (3 + phaseResetInterval (new_PatternGenerator 7 5)))
    as [[v2 g2]|] eqn:E2; [|vm_compute in E2; discriminate].
  exists v1, v2, g1, g2. split; [reflexivity|]. split; [reflexivity|].
  apply (computeValue_periodic (new_PatternGenerator 7 5) g1 g2 3 v1 v2);
    [constructor|discriminate|unfold MAX_SAFE_INTEGER; lia|simpl; unfold MAX_SAFE_INTEGER; lia
    |exact E1|exact E2].
Defined.

(** X3: two generators in any reachable state (fresh, after any
    [computeValue] calls, after [clearCache]) with the same seed and
    intervals of the same non-zero absolute value return the same value at
    every step where both return: the cache never changes a value, and a
    negative interval acts as its absolute value. *)
Theorem computeValue_same_config (g1 g2 g1' g2' : PatternGenerator) (k : Z) (v1 v2 : num) :
  gen_reachable g1 -> gen_reachable g2 -> seed g1 = seed g2 ->
  Z.abs (phaseResetInterval g1) = Z.abs (phaseResetInterval g2) -> phaseResetInterval g1 <> 0 ->
  computeValue g1 k = Some (v1, g1') -> computeValue g2 k = Some (v2, g2') ->
  v1 = v2.
Proof.
  intros H1 H2 Hs Ha Hi E1 E2.
  assert (Hi2 : phaseResetInterval g2 <> 0) by lia.
  rewrite (computeValue_value_closed g1 g1' k v1 H1 Hi E1).
  rewrite (computeValue_value_closed g2 g2' k v2 H2 Hi2 E2).
  rewrite Ha, Hs. reflexivity.
Qed.

Lemma computeValue_same_config_witness :
  exists v1 v2 g1' g2',
    computeValue (new_PatternGenerator 7 3) 5 = Some (v1, g1') /\
    computeValue (clearCache (new_PatternGenerator 7 (-3))) 5 = Some (v2, g2') /\ v1 = v2.
Proof.
  destruct (computeValue (new_PatternGenerator 7 3) 5) as [[v1 g1']|] eqn:E1;
    [|vm_compute in E1; discriminate].
  destruct (computeValue (clearCache (new_PatternGenerator 7 (-3))) 5) as [[v2 g2']|] eqn:E2;
    [|vm_compute in E2; discriminate].
  exists v1, v2, g1', g2'. split; [reflexivity|]. split; [reflexivity|].
  apply (computeValue_same_config (new_PatternGenerator 7 3) (clearCache (new_PatternGenerator 7 (-3)))
           g1' g2' 5 v1 v2);
    [constructor|constructor; constructor|reflexivity|reflexivity|discriminate|exact E1|exact E2].
Defined.

Lemma pattern_value_zero_interval (f : nat) : forall s k, pattern_value f s 0 k = None.
Proof. induction f as [|f IH]; intros s k; simpl; [reflexivity|]. rewrite IH. reflexivity. Qed.

Lemma computeValue_zero_interval_None (g : PatternGenerator) (k : Z) :
  gen_reachable g -> phaseResetInterval g = 0 -> computeValue g k = None.
Proof.
  intros Hg Hi. pose proof (gen_reachable_cache_ok g Hg) as Hc.
  unfold computeValue. rewrite Hi. simpl.
  destruct (cache g !! k) as [v|] eqn:E.
  - destruct (Hc k v E) as [f Hf]. rewrite Hi, pattern_value_zero_interval in Hf. discriminate.
  - reflexivity.
Qed.

(** X4: with an interval of 0, [computeValue] throws (a [RangeError] of
    the unbounded recursion) at every step, whatever the generator has been
    through: [step % 0] is NaN, never 0, and no value is ever cached. *)
Theorem computeValue_zero_interval_throws (g : PatternGenerator) (k : Z) :
  gen_reachable g -> phaseResetInterval g = 0 -> computeValue g k = None.
Proof. exact (computeValue_zero_interval_None g k). Qed.

Lemma computeValue_zero_interval_throws_witness :
  computeValue (new_PatternGenerator 7 0) 4 = None.
Proof. apply computeValue_zero_interval_throws; [constructor|reflexivity]. Defined.

Lemma pattern_iter_digit (s : Z) (n : nat) :
  1 <= s <= 9 -> pattern_iter n s = Num (1 + (s ^ Z.of_nat (S n) - 1) mod 9).
Proof.
  intros Hs. induction n as [|n IH].
  - simpl. rewrite Z.pow_1_r, Z.mod_small by lia. f_equal. lia.
  - cbn [pattern_iter]. rewrite IH. unfold step_fn, js_mul.
    set (x := 1 + (s ^ Z.of_nat (S n) - 1) mod 9).
    pose proof (Z.mod_pos_bound (s ^ Z.of_nat (S n) - 1) 9 ltac:(lia)).
    rewrite collapseDigits_digital_root by (split; [nia|]; assert (x * s <= 81) by nia; lia).
    unfold digital_root. destruct (x * s =? 0) eqn:E; [apply Z.eqb_eq in E; nia|].
    f_equal. f_equal.
    rewrite Nat2Z.inj_succ, Z.pow_succ_r by lia.
    pose proof (Z.div_mod (s ^ Z.of_nat (S n) - 1) 9 ltac:(lia)) as Hd.
    replace (x * s - 1) with (s ^ Z.of_nat (S n) * s - 1 + (- ((s ^ Z.of_nat (S n) - 1) / 9 * s)) * 9)
      by (unfold x; lia).
    rewrite Z.mod_add by lia. f_equal. lia.
Qed.

(** X5: for a seed 1..9, a non-zero interval and a safe step
    [0 <= step <= 2^53 - 1], a value [computeValue(step)] returns is
    [1 + (seed^(r+1) - 1) mod 9] with [r = step mod |interval|]: the
    digital root of a power of the seed (e.g. 7, 4, 1, 7, 4, 1, ... for
    seed 7). *)
Theorem computeValue_digit_power (g g' : PatternGenerator) (k : Z) (v : num) :
  gen_reachable g -> phaseResetInterval g <> 0 -> 1 <= seed g <= 9 ->
  0 <= k <= MAX_SAFE_INTEGER -> computeValue g k = Some (v, g') ->
  v = Num (1 + (seed g ^ (k mod Z.abs (phaseResetInterval g) + 1) - 1) mod 9).
Proof.
  intros Hg Hi Hs _ E. rewrite (computeValue_value_closed g g' k v Hg Hi E).
  rewrite pattern_iter_digit by exact Hs.
  pose proof (Z.mod_pos_bound k (Z.abs (phaseResetInterval g)) ltac:(lia)).
  rewrite Nat2Z.inj_succ, Z2Nat.id by lia. rewrite <- Z.add_1_r. reflexivity.
Qed.

Lemma computeValue_digit_power_witness :
  exists v g', computeValue (new_PatternGenerator 7 100) 250 = Some (v, g') /\
    v = Num (1 + (seed (new_PatternGenerator 7 100) ^
                   (250 mod Z.abs (phaseResetInterval (new_PatternGenerator 7 100)) + 1) - 1) mod 9).
Proof.
  destruct (computeValue (new_PatternGenerator 7 100) 250) as [[v g']|] eqn:E;
    [|vm_compute in E; discriminate].
  exists v, g'. split; [reflexivity|].
  apply (computeValue_digit_power _ g' 250 v);
    [constructor|discriminate|simpl; lia|unfold MAX_SAFE_INTEGER; lia|exact E].
Defined.

(** ** MeshNode: what a call touches *)

(** [c] leaves the node at every location outside [P] as it was, whether
    it returns or throws. *)
Definition keeps_outside {A : Type} (P : nat -> Prop) (c : M A) : Prop :=
  forall w l', ~ P l' -> heap (res_world (c w)) !! l' = heap w !! l'.

Lemma keeps_bind {A B : Type} (P : nat -> Prop) (c : M A) (k : A -> M B) :
  keeps_outside P c -> (forall a, keeps_outside P (k a)) -> keeps_outside P (c ≫= k).
Proof.
  intros Hc Hk w l' Hl. unfold mbind, M_bind. specialize (Hc w l' Hl).
  destruct (c w) as [a w1|w1]; simpl in *; [rewrite (Hk a w1 l' Hl)|]; exact Hc.
Qed.

Lemma keeps_ret {A : Type} (P : nat -> Prop) (a : A) : keeps_outside P (mret a).
Proof. intros w l' _. reflexivity. Qed.

Lemma keeps_throw {A : Type} (P : nat -> Prop) : keeps_outside P (@throw A).
Proof. intros w l' _. reflexivity. Qed.

Lemma keeps_get_node (P : nat -> Prop) (l : nat) : keeps_outside P (get_node l).
Proof. intros w l' _. unfold get_node. destruct (heap w !! l); reflexivity. Qed.

Lemma keeps_emit (P : nat -> Prop) (l : nat) (ev : Event) (ks : list nat) :
  keeps_outside P (emit l ev ks).
Proof. intros w l' _. reflexivity. Qed.

Lemma keeps_add_received (P : nat -> Prop) (l : nat) (m : Message.t) :
  keeps_outside P (modify (add_received l m)).
Proof. intros w l' _. reflexivity. Qed.

Lemma keeps_add_call (P : nat -> Prop) (k : nat) (ev : Event) :
  keeps_outside P (modify (add_call k ev)).
Proof. intros w l' _. reflexivity. Qed.

Lemma keeps_add_emitted (P : nat -> Prop) (l : nat) (ev : Event) (ks : list nat) :
  keeps_outside P (modify (add_emitted l ev ks)).
Proof. intros w l' _. reflexivity. Qed.

Lemma keeps_put (P : nat -> Prop) (l : nat) (n : MeshNode) :
  P l -> keeps_outside P (put_node l n).
Proof.
  intros Hl w l' Hl'. unfold put_node, modify. simpl.
  apply lookup_insert_ne. intros ->. exact (Hl' Hl).
Qed.

Lemma keeps_weaken {A : Type} (P Q : nat -> Prop) (c : M A) :
  (forall l, P l -> Q l) -> keeps_outside P c -> keeps_outside Q c.
Proof. intros HPQ Hc w l' Hl. apply Hc. intros HP. exact (Hl (HPQ l' HP)). Qed.

Create HintDb keeps.
#[local] Hint Resolve keeps_ret keeps_throw keeps_get_node keeps_emit keeps_add_received
  keeps_add_call keeps_add_emitted : keeps.

Ltac keeps_tac :=
  repeat match goal with
  | |- keeps_outside _ (_ ≫= _) => apply keeps_bind; [|intros ?]
  | |- keeps_outside _ (if ?b then _ else _) => destruct b
  | |- keeps_outside _ (match ?x with _ => _ end) => destruct x as [[? ?]|]
  | |- keeps_outside _ (put_node _ _) => apply keeps_put; reflexivity
  | |- _ => solve [eauto with keeps]
  end.

Lemma keeps_node_computeValue (l : nat) (s : Z) :
  keeps_outside (fun l' => l' = l) (node_computeValue l s).
Proof. unfold node_computeValue. keeps_tac. Qed.

Lemma keeps_sync (l : nat) (t : Z) : keeps_outside (fun l' => l' = l) (sync l t).
Proof. unfold sync. keeps_tac. Qed.

Lemma keeps_receive (l : nat) (m : Message.t) : keeps_outside (fun l' => l' = l) (receive l m).
Proof.
  unfold receive. apply keeps_bind; [auto with keeps|intros _].
  apply keeps_bind; [apply keeps_node_computeValue|intros v].
  destruct (negb _); keeps_tac; apply keeps_sync.
Qed.

Lemma keeps_forEach_route (entries : list (string * nat)) (m : Message.t) :
  keeps_outside (fun l' => exists id, In (id, l') entries /\ id <> Message.senderId m)
    (forEach_route entries m).
Proof.
  induction entries as [|[nid l] rest IH]; simpl; [apply keeps_ret|].
  apply keeps_bind.
  2:{ intros _; eapply keeps_weaken; [|exact IH]. simpl.
      intros l' (id & H1 & H2). exists id. tauto. }
  destruct (String.eqb nid (Message.senderId m)) eqn:E; simpl; [apply keeps_ret|].
  eapply keeps_weaken; [|apply keeps_receive]. intros l' ->. exists nid.
  split; [left; reflexivity|]. apply String.eqb_neq, E.
Qed.

Lemma keeps_dispatch (s : nat) (m : Message.t) (ls : list Listener) :
  forall w l', (forall id, In (id, l') (nodes w) -> id = Message.senderId m) ->
  heap (res_world (dispatch_broadcast s m ls w)) !! l' = heap w !! l'.
Proof.
  induction ls as [|[|k] ls IH]; simpl; intros w l' Hl; [reflexivity| |].
  - unfold mbind, M_bind. pose proof (keeps_forEach_route (nodes w) m w l') as K.
    pose proof (frames_forEach_route (nodes w) m w) as (N & _).
    unfold network_broadcast. destruct (forEach_route (nodes w) m w) as [a w1|w1]; simpl in *.
    + rewrite IH by (rewrite N; exact Hl). apply K. intros (id & Hin & Hne). exact (Hne (Hl id Hin)).
    + apply K. intros (id & Hin & Hne). exact (Hne (Hl id Hin)).
  - unfold mbind, M_bind, modify. exact (IH (add_call k (EvBroadcast m) w) l' Hl).
Qed.

(** X6: [receive] and [sync] on a node change no other node and leave
    the registry as it was, whether they return or throw (listeners are the
    callers' callbacks, logged but not run). *)
Theorem receive_sync_local (w : World) (l l' : nat) (m : Message.t) (t : Z) :
  l' <> l ->
  heap (res_world (receive l m w)) !! l' = heap w !! l' /\
  nodes (res_world (receive l m w)) = nodes w /\
  heap (res_world (sync l t w)) !! l' = heap w !! l' /\
  nodes (res_world (sync l t w)) = nodes w.
Proof.
  intros Hne. split; [|split; [|split]].
  - apply keeps_receive. exact Hne.
  - apply (frames_receive l m w).
  - apply keeps_sync. exact Hne.
  - apply (frames_sync l t w).
Qed.

Lemma receive_sync_local_witness :
  heap (res_world (receive 1 (Message.mk "A" 5 (Num 7) "x")
          (exec [OpCreateNode (NodeConfig.mk "A" 7 100); OpCreateNode (NodeConfig.mk "B" 7 5)]
             empty_world))) !! 0%nat =
  heap (exec [OpCreateNode (NodeConfig.mk "A" 7 100); OpCreateNode (NodeConfig.mk "B" 7 5)]
          empty_world) !! 0%nat /\
  nodes (res_world (receive 1 (Message.mk "A" 5 (Num 7) "x")
          (exec [OpCreateNode (NodeConfig.mk "A" 7 100); OpCreateNode (NodeConfig.mk "B" 7 5)]
             empty_world))) =
  nodes (exec [OpCreateNode (NodeConfig.mk "A" 7 100); OpCreateNode (NodeConfig.mk "B" 7 5)]
          empty_world) /\
  heap (res_world (sync 1 9 (exec [OpCreateNode (NodeConfig.mk "A" 7 100);
                                   OpCreateNode (NodeConfig.mk "B" 7 5)] empty_world))) !! 0%nat =
  heap (exec [OpCreateNode (NodeConfig.mk "A" 7 100); OpCreateNode (NodeConfig.mk "B" 7 5)]
          empty_world) !! 0%nat /\
  nodes (res_world (sync 1 9 (exec [OpCreateNode (NodeConfig.mk "A" 7 100);
                                    OpCreateNode (NodeConfig.mk "B" 7 5)] empty_world))) =
  nodes (exec [OpCreateNode (NodeConfig.mk "A" 7 100); OpCreateNode (NodeConfig.mk "B" 7 5)]
          empty_world).
Proof. apply receive_sync_local. discriminate. Defined.

(** ** MeshNode: sync, receive and broadcast in detail *)

Lemma sync_spec (w : World) (l : nat) (n : MeshNode) (t : Z) :
  heap w !! l = Some n ->
  sync l t w = Ret tt (if globalStep n <? t
                       then add_emitted l (EvSync t) (on_sync n)
                              (set_heap (<[l := set_globalStep n t]> (heap w)) w)
                       else w).
Proof.
  intros Hn. unfold sync. rewrite (bind_Ret _ _ _ n w) by (apply get_node_ok, Hn).
  destruct (globalStep n <? t); [|reflexivity].
  unfold put_node, emit, modify, mbind, M_bind, get_node. simpl.
  rewrite lookup_insert_eq. reflexivity.
Qed.

(** X7: two [sync] calls in a row leave the node at the largest of its
    step and the two targets, and emit a ['sync'] event exactly for each
    call whose target exceeded the step at that moment. *)
Theorem sync_twice (w : World) (l : nat) (n : MeshNode) (a b : Z) :
  node_at w l = Some n ->
  exists w' n', (sync l a;; sync l b) w = Ret tt w' /\ node_at w' l = Some n' /\
    globalStep n' = Z.max (globalStep n) (Z.max a b) /\
    emitted w' = emitted w ++ (if globalStep n <? a then [(l, EvSync a)] else []) ++
                 (if Z.max (globalStep n) a <? b then [(l, EvSync b)] else []).
Proof.
  intros Hn. unfold node_at in *.
  rewrite (bind_Ret _ _ _ tt _) by (apply sync_spec, Hn).
  destruct (globalStep n <? a) eqn:Ea.
  - apply Z.ltb_lt in Ea. rewrite (Z.max_r (globalStep n) a) by lia.
    rewrite (sync_spec _ l (set_globalStep n a)) by (simpl; apply lookup_insert_eq). simpl.
    destruct (a <? b) eqn:Eb; do 2 eexists; (split; [reflexivity|]); simpl;
      rewrite ?lookup_insert_eq; (split; [reflexivity|]); simpl.
    + apply Z.ltb_lt in Eb. split; [lia|]. rewrite <- app_assoc. reflexivity.
    + apply Z.ltb_ge in Eb. split; [lia|]. rewrite ?app_nil_r. reflexivity.
  - apply Z.ltb_ge in Ea. rewrite (Z.max_l (globalStep n) a) by lia.
    rewrite (sync_spec _ l n) by exact Hn.
    destruct (globalStep n <? b) eqn:Eb; do 2 eexists; (split; [reflexivity|]); simpl.
    + apply Z.ltb_lt in Eb. rewrite lookup_insert_eq. split; [reflexivity|]. simpl. split; [lia|]. reflexivity.
    + apply Z.ltb_ge in Eb. split; [exact Hn|]. split; [lia|]. rewrite ?app_nil_r. reflexivity.
Qed.

Lemma sync_twice_witness :
  exists w' n', (sync 0 5;; sync 0 3)
                  (exec [OpCreateNode (NodeConfig.mk "A" 7 100)] empty_world) = Ret tt w' /\
    node_at w' 0 = Some n' /\ globalStep n' = Z.max 0 (Z.max 5 3) /\
    emitted w' = emitted (exec [OpCreateNode (NodeConfig.mk "A" 7 100)] empty_world) ++
                 (if 0 <? 5 then [(0%nat, EvSync 5)] else []) ++
                 (if Z.max 0 5 <? 3 then [(0%nat, EvSync 3)] else []).
Proof.
  apply (sync_twice _ 0
           {| nodeId := "A"; pattern := new_PatternGenerator 7 100; globalStep := 0;
              on_broadcast := [NetworkRoute]; on_message := []; on_error := []; on_sync := [] |}).
  vm_compute. reflexivity.
Defined.

(** X8: when the node's generator gives the message's [patternValue] at
    the message's step, [receive] returns normally. The node's step becomes
    the larger of its step and the message's, and it emits a ['sync'] event
    (only if the step grew) and then the ['message'] event. The node's sync
    and message callbacks are called in that order. *)
Theorem receive_accept (w : World) (l : nat) (n : MeshNode) (message : Message.t)
    (v : num) (g' : PatternGenerator) :
  node_at w l = Some n ->
  computeValue (pattern n) (Message.globalStep message) = Some (v, g') ->
  js_strict_eq v (Message.patternValue message) = true ->
  exists w' n', receive l message w = Ret tt w' /\ node_at w' l = Some n' /\
    globalStep n' = Z.max (globalStep n) (Message.globalStep message) /\ pattern n' = g' /\
    emitted w' = emitted w ++
      (if globalStep n <? Message.globalStep message
       then [(l, EvSync (Message.globalStep message))] else []) ++ [(l, EvMessage message)] /\
    calls w' = calls w ++
      (if globalStep n <? Message.globalStep message
       then map (fun k => (k, EvSync (Message.globalStep message))) (on_sync n) else []) ++
      map (fun k => (k, EvMessage message)) (on_message n) /\
    received w' = received w ++ [(l, message)].
Proof.
  intros Hn E Heq. unfold node_at in *.
  unfold receive. rewrite (bind_Ret _ _ _ tt (add_received l message w)) by reflexivity.
  rewrite (bind_Ret _ _ _ v _) by (apply (node_computeValue_ok _ _ n _ g'); [exact Hn|exact E]).
  rewrite Heq. cbn [negb].
  rewrite (bind_Ret _ _ _ tt _) by (apply sync_spec; apply lookup_insert_eq).
  simpl globalStep. simpl on_sync.
  destruct (globalStep n <? Message.globalStep message) eqn:Et.
  - apply Z.ltb_lt in Et. unfold emit, modify, mbind, M_bind, get_node. simpl.
    rewrite !lookup_insert_eq. do 2 eexists. split; [reflexivity|]. simpl.
    rewrite lookup_insert_eq. split; [reflexivity|]. simpl.
    split; [lia|]. split; [reflexivity|]. rewrite <- !app_assoc. split; [|split]; reflexivity.
  - apply Z.ltb_ge in Et. unfold emit, modify, mbind, M_bind, get_node. simpl.
    rewrite !lookup_insert_eq. do 2 eexists. split; [reflexivity|]. simpl.
    rewrite lookup_insert_eq. split; [reflexivity|]. simpl.
    split; [lia|]. split; [reflexivity|]. split; [|split]; reflexivity.
Qed.

Lemma receive_accept_witness :
  exists w' n', receive 0 (Message.mk "B" 3 (Num 7) "x")
                  (exec [OpCreateNode (NodeConfig.mk "A" 7 3)] empty_world) = Ret tt w' /\
    node_at w' 0 = Some n' /\ globalStep n' = Z.max 0 (Message.globalStep (Message.mk "B" 3 (Num 7) "x")) /\
    pattern n' = {| seed := 7; phaseResetInterval := 3; cache := <[3 := Num 7]> ∅ |} /\
    emitted w' = emitted (exec [OpCreateNode (NodeConfig.mk "A" 7 3)] empty_world) ++
      (if 0 <? Message.globalStep (Message.mk "B" 3 (Num 7) "x")
       then [(0%nat, EvSync (Message.globalStep (Message.mk "B" 3 (Num 7) "x")))] else []) ++
      [(0%nat, EvMessage (Message.mk "B" 3 (Num 7) "x"))] /\
    calls w' = calls (exec [OpCreateNode (NodeConfig.mk "A" 7 3)] empty_world) ++
      (if 0 <? Message.globalStep (Message.mk "B" 3 (Num 7) "x")
       then map (fun k => (k, EvSync (Message.globalStep (Message.mk "B" 3 (Num 7) "x")))) []
       else []) ++
      map (fun k => (k, EvMessage (Message.mk "B" 3 (Num 7) "x"))) [] /\
    received w' = received (exec [OpCreateNode (NodeConfig.mk "A" 7 3)] empty_world) ++
      [(0%nat, Message.mk "B" 3 (Num 7) "x")].
Proof.
  apply (receive_accept _ 0
           {| nodeId := "A"; pattern := new_PatternGenerator 7 3; globalStep := 0;
              on_broadcast := [NetworkRoute]; on_message := []; on_error := []; on_sync := [] |}
           _ (Num 7)); vm_compute; reflexivity.
Defined.

(** X9: in a reachable world, if X's [broadcast] returns normally and X
    was at a safe step ([globalStep <= 2^53 - 1], below which [++] is
    exact in the engine), it has advanced X's [globalStep] by exactly one,
    whatever the receivers did. *)
Theorem broadcast_advances_sender (w w' : World) (X : nat) (x : MeshNode) (d : string) :
  reachable w -> node_at w X = Some x -> globalStep x <= MAX_SAFE_INTEGER ->
  broadcast X d w = Ret tt w' ->
  exists x', node_at w' X = Some x' /\ globalStep x' = globalStep x + 1.
Proof.
  intros Hr Hx _ E. unfold node_at in *.
  pose proof (reachable_world_ok w Hr) as Hw. pose proof Hw as (W1 & W2 & W3 & W4).
  assert (K : forall (s0 : nat) (m0 : Message.t) (ls : list Listener) (w0 w1 : World),
             dispatch_broadcast s0 m0 ls w0 = Ret tt w1 ->
             (forall id, In (id, X) (nodes w0) -> id = Message.senderId m0) ->
             heap w1 !! X = heap w0 !! X).
  { intros s0 m0 ls w0 w1 Ed Hl. pose proof (keeps_dispatch s0 m0 ls w0 X Hl) as K.
    rewrite Ed in K. exact K. }
  unfold broadcast in E.
  apply bind_Ret_inv in E as (x0 & w0 & E0 & E). unfold get_node in E0.
  rewrite Hx in E0. injection E0 as <- <-. cbv beta in E.
  apply bind_Ret_inv in E as (v & w2 & E2 & E).
  destruct (node_computeValue_ret _ _ _ _ _ E2) as (n & g' & Hn & _ & ->).
  rewrite Hx in Hn. injection Hn as <-. cbv beta in E.
  apply bind_Ret_inv in E as (n1 & w3 & E3 & E).
  unfold get_node, set_heap in E3. cbn [heap] in E3. rewrite lookup_insert_eq in E3.
  inversion E3; subst. cbv beta in E.
  apply bind_Ret_inv in E as ([] & w4 & E4 & E5).
  unfold emit_broadcast in E4. apply bind_Ret_inv in E4 as ([] & w5 & E6 & E7).
  unfold modify in E6. inversion E6; subst. cbv beta in E7.
  assert (Hx4 : heap w4 !! X = Some (set_pattern x g')).
  { rewrite (K _ _ _ _ _ E7).
    - unfold add_emitted, set_heap. cbn [heap]. apply lookup_insert_eq.
    - intros id Hin. destruct (W2 id X Hin) as (n & Hn & Hid & _). rewrite Hx in Hn.
      injection Hn as <-. symmetry. exact Hid. }
  unfold incrementStep in E5. apply bind_Ret_inv in E5 as (n4 & w6 & E8 & E9).
  unfold get_node in E8. rewrite Hx4 in E8. inversion E8; subst. cbv beta in E9.
  unfold put_node, modify in E9. inversion E9; subst.
  eexists. split; [unfold set_heap; cbn [heap]; rewrite lookup_insert_eq; reflexivity|]. reflexivity.
Qed.

Lemma broadcast_advances_sender_witness :
  exists w', broadcast 0 "x" (exec [OpCreateNode (NodeConfig.mk "A" 7 100);
                                   OpCreateNode (NodeConfig.mk "B" 7 100)] empty_world) = Ret tt w' /\
    exists x', node_at w' 0 = Some x' /\ globalStep x' = 0 + 1.
Proof.
  destruct (broadcast 0 "x" (exec [OpCreateNode (NodeConfig.mk "A" 7 100);
                                  OpCreateNode (NodeConfig.mk "B" 7 100)] empty_world))
    as [[] w'|w'] eqn:E; [|vm_compute in E; discriminate].
  exists w'. split; [reflexivity|].
  apply (broadcast_advances_sender
           (exec [OpCreateNode (NodeConfig.mk "A" 7 100); OpCreateNode (NodeConfig.mk "B" 7 100)] empty_world)
           w' 0
           {| nodeId := "A"; pattern := new_PatternGenerator 7 100; globalStep := 0;
              on_broadcast := [NetworkRoute]; on_message := []; on_error := []; on_sync := [] |} "x").
  - exists [OpCreateNode (NodeConfig.mk "A" 7 100); OpCreateNode (NodeConfig.mk "B" 7 100)]. reflexivity.
  - vm_compute. reflexivity.
  - simpl. unfold MAX_SAFE_INTEGER. lia.
  - exact E.
Defined.

(** ** MeshNetwork: the registry *)

Lemma map_get_delete_eq (ns : list (string * nat)) (k : string) :
  List.NoDup (map fst ns) -> map_get (map_delete ns k) k = None.
Proof.
  induction ns as [|[k' v'] ns IH]; simpl; intros Hnd; [reflexivity|].
  inversion Hnd as [|? ? Hnin Hnd']; subst.
  destruct (String.eqb k' k) eqn:E; simpl.
  - apply String.eqb_eq in E. subst k'.
    clear IH Hnd Hnd'. induction ns as [|[k2 v2] ns IH2]; simpl in *; [reflexivity|].
    destruct (String.eqb k2 k) eqn:E2; [apply String.eqb_eq in E2; subst; tauto|]. tauto.
  - rewrite E. apply IH, Hnd'.
Qed.

Lemma map_get_delete_ne (ns : list (string * nat)) (k k' : string) :
  k' <> k -> map_get (map_delete ns k) k' = map_get ns k'.
Proof.
  intros Hne. induction ns as [|[k0 v0] ns IH]; simpl; [reflexivity|].
  destruct (String.eqb k0 k) eqn:E; simpl.
  - apply String.eqb_eq in E. subst k0. destruct (String.eqb k k') eqn:E'; [|reflexivity].
    apply String.eqb_eq in E'. congruence.
  - rewrite IH. reflexivity.
Qed.

(** X10: in a reachable world, after [removeNode(id)] the call
    [getNode(id)] returns undefined. [getNode] of every other id returns
    what it returned before. *)
Theorem removeNode_getNode (w : World) (id id' : string) :
  reachable w ->
  getNode id (res_world (removeNode id w)) = Ret None (res_world (removeNode id w)) /\
  (id' <> id -> getNode id' (res_world (removeNode id w)) =
                Ret (map_get (nodes w) id') (res_world (removeNode id w))).
Proof.
  intros Hr. pose proof (reachable_world_ok w Hr) as (W1 & _).
  unfold getNode, removeNode, modify. simpl. split.
  - rewrite map_get_delete_eq by exact W1. reflexivity.
  - intros Hne. rewrite map_get_delete_ne by exact Hne. reflexivity.
Qed.

Lemma removeNode_getNode_witness :
  getNode "A" (res_world (removeNode "A" (exec [OpCreateNode (NodeConfig.mk "A" 7 100);
                                                OpCreateNode (NodeConfig.mk "B" 7 100)] empty_world))) =
    Ret None (res_world (removeNode "A" (exec [OpCreateNode (NodeConfig.mk "A" 7 100);
                                              OpCreateNode (NodeConfig.mk "B" 7 100)] empty_world))) /\
  ("B" <> "A" ->
   getNode "B" (res_world (removeNode "A" (exec [OpCreateNode (NodeConfig.mk "A" 7 100);
                                                 OpCreateNode (NodeConfig.mk "B" 7 100)] empty_world))) =
   Ret (map_get (nodes (exec [OpCreateNode (NodeConfig.mk "A" 7 100);
                              OpCreateNode (NodeConfig.mk "B" 7 100)] empty_world)) "B")
       (res_world (removeNode "A" (exec [OpCreateNode (NodeConfig.mk "A" 7 100);
                                         OpCreateNode (NodeConfig.mk "B" 7 100)] empty_world)))).
Proof.
  apply removeNode_getNode.
  exists [OpCreateNode (NodeConfig.mk "A" 7 100); OpCreateNode (NodeConfig.mk "B" 7 100)]. reflexivity.
Defined.

Lemma map_set_existing (ns : list (string * nat)) (k : string) (v : nat) :
  map_get ns k <> None -> map fst (map_set ns k v) = map fst ns.
Proof.
  induction ns as [|[k' v'] ns IH]; simpl; intros H; [congruence|].
  destruct (String.eqb k' k) eqn:E; simpl.
  - apply String.eqb_eq in E. subst. reflexivity.
  - rewrite IH by exact H. reflexivity.
Qed.

(** X11: in a reachable world, [createNode] with an id that is already
    registered replaces the registry entry in place. The list of
    registered ids (in iteration order) is unchanged, and [getNode(id)]
    returns the new node. The replaced node stays as it was, keeping its
    subscription to the network's [broadcast]. *)
Theorem createNode_replaces (w : World) (config : NodeConfig.t) (lold : nat) (nold : MeshNode) :
  reachable w -> map_get (nodes w) (NodeConfig.nodeId config) = Some lold ->
  exists l w', createNode config w = Ret l w' /\ l <> lold /\
    map fst (nodes w') = map fst (nodes w) /\
    map_get (nodes w') (NodeConfig.nodeId config) = Some l /\
    (node_at w lold = Some nold -> node_at w' lold = Some nold /\
                                  count_route (on_broadcast nold) = 1%nat).
Proof.
  intros Hr Hg. pose proof (reachable_world_ok w Hr) as (W1 & W2 & W3 & W4).
  assert (Hin : In (NodeConfig.nodeId config, lold) (nodes w)).
  { clear -Hg. induction (nodes w) as [|[k v] ns IH]; simpl in *; [discriminate|].
    destruct (String.eqb k _) eqn:E; [apply String.eqb_eq in E; subst; injection Hg as ->; auto|auto]. }
  destruct (W2 _ _ Hin) as (n0 & Hn0 & _ & Hc0).
  assert (Hlt : (lold < next_loc w)%nat).
  { destruct (Nat.lt_ge_cases lold (next_loc w)) as [|Hge]; [assumption|].
    rewrite (W4 lold Hge) in Hn0. discriminate. }
  rewrite createNode_result. do 2 eexists. split; [reflexivity|]. simpl.
  split; [lia|]. split; [apply map_set_existing; congruence|].
  split; [apply map_get_set_eq|].
  unfold node_at. simpl. intros Hold. rewrite Hn0 in Hold. injection Hold as <-.
  rewrite !lookup_insert_ne by lia. split; [exact Hn0|exact Hc0].
Qed.

Lemma createNode_replaces_witness :
  exists l w', createNode (NodeConfig.mk "A" 3 5)
                 (exec [OpCreateNode (NodeConfig.mk "A" 7 100); OpCreateNode (NodeConfig.mk "B" 7 100)]
                    empty_world) = Ret l w' /\ l <> 0%nat /\
    map fst (nodes w') = map fst (nodes (exec [OpCreateNode (NodeConfig.mk "A" 7 100);
                                               OpCreateNode (NodeConfig.mk "B" 7 100)] empty_world)) /\
    map_get (nodes w') (NodeConfig.nodeId (NodeConfig.mk "A" 3 5)) = Some l /\
    (node_at (exec [OpCreateNode (NodeConfig.mk "A" 7 100); OpCreateNode (NodeConfig.mk "B" 7 100)]
                empty_world) 0 =
       Some {| nodeId := "A"; pattern := new_PatternGenerator 7 100; globalStep := 0;
               on_broadcast := [NetworkRoute]; on_message := []; on_error := []; on_sync := [] |} ->
     node_at w' 0 =
       Some {| nodeId := "A"; pattern := new_PatternGenerator 7 100; globalStep := 0;
               on_broadcast := [NetworkRoute]; on_message := []; on_error := []; on_sync := [] |} /\
     count_route [NetworkRoute] = 1%nat).
Proof.
  apply (createNode_replaces _ (NodeConfig.mk "A" 3 5) 0
           {| nodeId := "A"; pattern := new_PatternGenerator 7 100; globalStep := 0;
              on_broadcast := [NetworkRoute]; on_message := []; on_error := []; on_sync := [] |}).
  - exists [OpCreateNode (NodeConfig.mk "A" 7 100); OpCreateNode (NodeConfig.mk "B" 7 100)]. reflexivity.
  - vm_compute. reflexivity.
Defined.

(** ** MeshObserver *)

(** X12: [observe] on an observer whose generator is in a reachable state
    throws for every message when the interval is 0: [step % 0] is NaN, so
    the recursion of [computeValue] never meets a reset step, and no value
    is ever cached. *)
Theorem observe_throws_zero_interval (now : Z) (o : MeshObserver) (m : Message.t) :
  gen_reachable (obs_pattern o) -> phaseResetInterval (obs_pattern o) = 0 ->
  observe now o m = None.
Proof.
  intros Hg Hi. unfold observe. rewrite computeValue_zero_interval_None by assumption. reflexivity.
Qed.

Lemma observe_throws_zero_interval_witness :
  observe 0 (new_MeshObserver 7 0) (Message.mk "A" 0 (Num 7) "") = None.
Proof. apply observe_throws_zero_interval; [constructor|reflexivity]. Defined.

(** X13: every [observe] call that returns adds exactly one to
    [totalObserved]. It adds one to [validMessages] when the expected value
    [===] the message's [patternValue]; otherwise it adds one to
    [anomalies] and emits the anomaly with both values. *)
Theorem observe_statistics (now : Z) (o o' : MeshObserver) (m : Message.t) (ev : ObserverEvent) :
  observe now o m = Some (o', ev) ->
  Statistics.totalObserved (getStatistics o') = Statistics.totalObserved (getStatistics o) + 1 /\
  ((Statistics.validMessages (getStatistics o') = Statistics.validMessages (getStatistics o) + 1 /\
    Statistics.anomalies (getStatistics o') = Statistics.anomalies (getStatistics o) /\
    ev = EvValidMessage m)
   \/
   (Statistics.validMessages (getStatistics o') = Statistics.validMessages (getStatistics o) /\
    Statistics.anomalies (getStatistics o') = Statistics.anomalies (getStatistics o) + 1 /\
    exists v, js_strict_eq v (Message.patternValue m) = false /\
      ev = EvAnomaly {| an_type := "pattern-mismatch"; an_message := m; an_expected := v;
                        an_received := Message.patternValue m; an_timestamp := now |})).
Proof.
  unfold observe. destruct (computeValue _ _) as [[v g']|]; [|discriminate].
  destruct (js_strict_eq v (Message.patternValue m)) eqn:E; simpl; intros H; injection H as <- <-;
    unfold getStatistics; simpl; rewrite length_app; simpl.
  - split; [lia|]. left. split; [lia|]. split; reflexivity.
  - split; [lia|]. right. split; [reflexivity|]. split; [lia|]. exists v. split; [exact E|reflexivity].
Qed.

(** X14: [successRate] is always between 0 and 100. *)
Theorem getStatistics_successRate_bounds (o : MeshObserver) :
  (0 <= Statistics.successRate (getStatistics o) <= 100)%Q.
Proof.
  unfold getStatistics. simpl.
  set (a := Z.of_nat (length (observedMessages o))). set (b := Z.of_nat (length (anomalies o))).
  assert (0 <= a) by lia. assert (0 <= b) by lia.
  destruct (0 <? a + b) eqn:E; [|split; discriminate].
  apply Z.ltb_lt in E.
  assert (Ht : (0 < inject_Z (a + b))%Q) by (unfold Qlt; simpl; lia).
  split.
  - apply Qmult_le_0_compat; [|discriminate].
    apply Qle_shift_div_l; [exact Ht|]. unfold Qle; simpl; lia.
  - assert (H1 : (inject_Z a / inject_Z (a + b) <= 1)%Q).
    { apply Qle_shift_div_r; [exact Ht|]. unfold Qle; simpl; lia. }
    exact (Qmult_le_compat_r _ _ (inject_Z 100) H1 ltac:(discriminate)).
Qed.

(** X15: an observer whose generator is in a reachable state judges a
    message by the sequence alone: when [observe] returns, it has recorded
    the message as valid exactly when its [patternValue] [===] the value
    that a reachable generator with the same seed and an interval of the
    same non-zero absolute value returns at the message's step, e.g. the
    value the sending node put in it. *)
Theorem observe_agrees_with_generator (now : Z) (o o' : MeshObserver) (ev : ObserverEvent)
    (g g' : PatternGenerator) (m : Message.t) (v : num) :
  gen_reachable (obs_pattern o) -> gen_reachable g ->
  seed g = seed (obs_pattern o) ->
  Z.abs (phaseResetInterval g) = Z.abs (phaseResetInterval (obs_pattern o)) ->
  phaseResetInterval g <> 0 ->
  computeValue g (Message.globalStep m) = Some (v, g') ->
  observe now o m = Some (o', ev) ->
  (observedMessages o' = observedMessages o ++ [m] <-> js_strict_eq v (Message.patternValue m) = true).
Proof.
  intros Ho Hg Hs Ha Hi E Eo. unfold observe in Eo.
  destruct (computeValue (obs_pattern o) (Message.globalStep m)) as [[v2 g2]|] eqn:E2; [|discriminate].
  assert (Hi2 : phaseResetInterval (obs_pattern o) <> 0) by lia.
  assert (v2 = v) as ->.
  { rewrite (computeValue_value_closed _ _ _ _ Ho Hi2 E2), (computeValue_value_closed _ _ _ _ Hg Hi E).
    rewrite Ha, Hs. reflexivity. }
  destruct (js_strict_eq v (Message.patternValue m)) eqn:Eq; simpl in Eo; injection Eo as <- <-; simpl.
  - tauto.
  - split; [|discriminate]. intros H.
    apply (f_equal (@length Message.t)) in H. rewrite length_app in H. simpl in H. lia.
Qed.

Lemma observe_agrees_with_generator_witness :
  exists o' ev, observe 0 (new_MeshObserver 7 100) (Message.mk "A" 1 (Num 4) "") = Some (o', ev) /\
    (observedMessages o' = observedMessages (new_MeshObserver 7 100) ++ [Message.mk "A" 1 (Num 4) ""] <->
     js_strict_eq (Num 4) (Message.patternValue (Message.mk "A" 1 (Num 4) "")) = true).
Proof.
  destruct (observe 0 (new_MeshObserver 7 100) (Message.mk "A" 1 (Num 4) "")) as [[o' ev]|] eqn:Eo;
    [|vm_compute in Eo; discriminate].
  exists o', ev. split; [reflexivity|].
  apply (observe_agrees_with_generator 0 (new_MeshObserver 7 100) o' ev (new_PatternGenerator 7 (-100))
           {| seed := 7; phaseResetInterval := -100; cache := <[1 := Num 4]> (<[0 := Num 7]> ∅) |});
    [constructor|constructor|reflexivity|reflexivity|discriminate|vm_compute; reflexivity|exact Eo].
Defined.

Lemma observe_statistics_witness :
  exists o' ev, observe 5 (new_MeshObserver 7 100) (Message.mk "A" 1 (Num 3) "") = Some (o', ev) /\
  Statistics.totalObserved (getStatistics o') = Statistics.totalObserved (getStatistics (new_MeshObserver 7 100)) + 1 /\
  ((Statistics.validMessages (getStatistics o') = Statistics.validMessages (getStatistics (new_MeshObserver 7 100)) + 1 /\
    Statistics.anomalies (getStatistics o') = Statistics.anomalies (getStatistics (new_MeshObserver 7 100)) /\
    ev = EvValidMessage (Message.mk "A" 1 (Num 3) ""))
   \/
   (Statistics.validMessages (getStatistics o') = Statistics.validMessages (getStatistics (new_MeshObserver 7 100)) /\
    Statistics.anomalies (getStatistics o') = Statistics.anomalies (getStatistics (new_MeshObserver 7 100)) + 1 /\
    exists v, js_strict_eq v (Message.patternValue (Message.mk "A" 1 (Num 3) "")) = false /\
      ev = EvAnomaly {| an_type := "pattern-mismatch"; an_message := Message.mk "A" 1 (Num 3) "";
                        an_expected := v; an_received := Message.patternValue (Message.mk "A" 1 (Num 3) "");
                        an_timestamp := 5 |})).
Proof.
  destruct (observe 5 (new_MeshObserver 7 100) (Message.mk "A" 1 (Num 3) "")) as [[o' ev]|] eqn:E.
  - exists o', ev. split; [reflexivity|]. exact (observe_statistics _ _ _ _ _ E).
  - vm_compute in E. discriminate.
Defined.

(** ** Input validation (core/mesh-node.ts, [validateNodeConfig] and
    [validateMessage])

    The validators take [any]: a JavaScript value is modelled by [jsval],
    an object by the list of its own data properties. *)

#[warnings="-register-all"]
Inductive jsval : Type :=
| JUndefined
| JNull
| JBool (b : bool)
| JNumber (n : num)
| JString (s : string)
| JObject (props : list (string * jsval))
| JFunction.

(** [typeof v] *)
Definition typeof (v : jsval) : string :=
  match v with
  | JUndefined => "undefined"
  | JNull => "object"
  | JBool _ => "boolean"
  | JNumber _ => "number"
  | JString _ => "string"
  | JObject _ => "object"
  | JFunction => "function"
  end.

Fixpoint own_prop (ps : list (string * jsval)) (k : string) : jsval :=
  match ps with
  | [] => JUndefined
  | (k', v) :: rest => if String.eqb k' k then v else own_prop rest k
  end.

(** [v.k] for a key that no built-in prototype defines (the keys read by
    the validators); [None] is the [TypeError] thrown on [null] and
    [undefined]. *)
Definition get_prop (v : jsval) (k : string) : option jsval :=
  match v with
  | JUndefined | JNull => None
  | JObject ps => Some (own_prop ps k)
  | _ => Some JUndefined
  end.

(** [x > 0] and [x >= 0] once [typeof x === 'number'] holds. *)
Definition jsval_gt0 (v : jsval) : bool :=
  match v with JNumber n => js_gt n (Num 0) | _ => false end.

Definition jsval_ge0 (v : jsval) : bool :=
  match v with JNumber (Num z) => 0 <=? z | _ => false end.

(** The [&&] chain, evaluated left to right; [None] is a throw. *)
Definition validateNodeConfig (config : jsval) : option bool :=
  if negb (String.eqb (typeof config) "object") then Some false else
  match get_prop config "nodeId" with None => None | Some nodeId =>
  if negb (String.eqb (typeof nodeId) "string") then Some false else
  match get_prop config "seed" with None => None | Some seed =>
  if negb (String.eqb (typeof seed) "number") then Some false else
  match get_prop config "phaseResetInterval" with None => None | Some pri =>
  if negb (String.eqb (typeof pri) "number") then Some false else
  Some (jsval_gt0 pri) end end end.

Definition validateMessage (message : jsval) : option bool :=
  if negb (String.eqb (typeof message) "object") then Some false else
  match get_prop message "senderId" with None => None | Some senderId =>
  if negb (String.eqb (typeof senderId) "string") then Some false else
  match get_prop message "globalStep" with None => None | Some globalStep =>
  if negb (String.eqb (typeof globalStep) "number") then Some false else
  match get_prop message "patternValue" with None => None | Some patternValue =>
  if negb (String.eqb (typeof patternValue) "number") then Some false else
  Some (jsval_ge0 globalStep) end end end.

(** X16: the validators throw a [TypeError] exactly on [null]: [typeof null]
    is ['object'], so the next conjunct reads a property of [null]. On
    every other value, [undefined] included, they return a boolean. *)
Theorem validators_throw_only_on_null (v : jsval) :
  (validateNodeConfig v = None <-> v = JNull) /\ (validateMessage v = None <-> v = JNull).
Proof.
  destruct v as [| | | | |ps|]; unfold validateNodeConfig, validateMessage; simpl;
    try (split; split; intros; congruence).
  split; (split; [|discriminate]); repeat case_match; discriminate.
Qed.

(** X18: [validateMessage] accepts a message whose [patternValue] is [NaN]
    ([typeof NaN] is ['number']), while [observe] never counts a message
    with a [NaN] [patternValue] as valid: if it returns, the message is an
    anomaly. *)
Theorem validateMessage_accepts_NaN (senderId : string) (globalStep : Z) :
  0 <= globalStep ->
  validateMessage (JObject [("senderId", JString senderId); ("globalStep", JNumber (Num globalStep));
                            ("patternValue", JNumber NaN)]) = Some true /\
  forall now o data o' ev,
    observe now o (Message.mk senderId globalStep NaN data) = Some (o', ev) ->
    exists a, ev = EvAnomaly a /\ observedMessages o' = observedMessages o.
Proof.
  intros Hs. split.
  - unfold validateMessage. simpl. f_equal. apply Z.leb_le. exact Hs.
  - intros now o data o' ev. unfold observe.
    destruct (computeValue _ _) as [[v g']|]; [|discriminate].
    assert (E : js_strict_eq v NaN = false) by (destruct v; reflexivity).
    simpl. rewrite E. simpl. intros H. injection H as <- <-. eexists. split; reflexivity.
Qed.

Lemma validateMessage_accepts_NaN_witness :
  validateMessage (JObject [("senderId", JString "A"); ("globalStep", JNumber (Num 2));
                            ("patternValue", JNumber NaN)]) = Some true /\
  forall now o data o' ev,
    observe now o (Message.mk "A" 2 NaN data) = Some (o', ev) ->
    exists a, ev = EvAnomaly a /\ observedMessages o' = observedMessages o.
Proof. apply validateMessage_accepts_NaN. lia. Defined.

(** ** PerformanceMonitor (utils/performance-monitor.ts)

    Times are the values of [performance.now()], passed in as arguments;
    durations are computed exactly in [Q] (float rounding is not
    modelled, nor [NaN], which [performance.now()] never returns). A JS
    [Map] is an association list in insertion order. *)

Section JsMap.
Context {V : Type}.

(** [Map.prototype.get] *)
Fixpoint jsmap_get (m : list (string * V)) (k : string) : option V :=
  match m with
  | [] => None
  | (k', v) :: rest => if String.eqb k' k then Some v else jsmap_get rest k
  end.

(** [Map.prototype.set]: an existing key keeps its place. *)
Fixpoint jsmap_set (m : list (string * V)) (k : string) (v : V) : list (string * V) :=
  match m with
  | [] => [(k, v)]
  | (k', v') :: rest => if String.eqb k' k then (k, v) :: rest else (k', v') :: jsmap_set rest k v
  end.

(** [Map.prototype.delete] *)
Fixpoint jsmap_delete (m : list (string * V)) (k : string) : list (string * V) :=
  match m with
  | [] => []
  | (k', v') :: rest => if String.eqb k' k then rest else (k', v') :: jsmap_delete rest k
  end.

(** [Map.prototype.has] *)
Definition jsmap_has (m : list (string * V)) (k : string) : bool :=
  match jsmap_get m k with Some _ => true | None => false end.

End JsMap.

Record PerformanceMonitor : Type := mkPerformanceMonitor {
  metrics : list (string * list Q);
  timers : list (string * Q)
}.

Definition new_PerformanceMonitor : PerformanceMonitor :=
  {| metrics := []; timers := [] |}.

(** [startTimer(name)] at time [now] *)
Definition startTimer (now : Q) (name : string) (pm : PerformanceMonitor) : PerformanceMonitor :=
  {| metrics := metrics pm; timers := jsmap_set (timers pm) name now |}.

(** [!startTime]: [undefined] and [0] are falsy. *)
Definition js_falsy_time (t : option Q) : bool :=
  match t with None => true | Some s => Qeq_bool s 0 end.

(** [endTimer(name)] at time [now]; [None] is the thrown [Error]. The
    [metrics.get(name)!] after the [has]/[set] is never [undefined]; the
    [None] branch there is the [TypeError] a missing array would raise. *)
Definition endTimer (now : Q) (name : string) (pm : PerformanceMonitor)
    : option (Q * PerformanceMonitor) :=
  let startTime := jsmap_get (timers pm) name in
  if js_falsy_time startTime then None else
  match startTime with None => None | Some st =>
  let duration := (now - st)%Q in
  let timers' := jsmap_delete (timers pm) name in
  let metrics1 := if jsmap_has (metrics pm) name then metrics pm
                  else jsmap_set (metrics pm) name [] in
  match jsmap_get metrics1 name with
  | None => None
  | Some values =>
      Some (duration, {| metrics := jsmap_set metrics1 name (values ++ [duration]);
                         timers := timers' |})
  end end.

Module MetricStats.
Record t : Type := mk {
  count : nat;
  avg : Q;
  min : Q;
  max : Q;
  total : Q
}.
End MetricStats.

(** [Math.min(...values)] and [Math.max(...values)] on a non-empty array:
    the first value, then each later one that is strictly smaller (larger). *)
Definition math_min (v : Q) (rest : list Q) : Q :=
  fold_left (fun m x => if Qlt_le_dec x m then x else m) rest v.

Definition math_max (v : Q) (rest : list Q) : Q :=
  fold_left (fun m x => if Qlt_le_dec m x then x else m) rest v.

(** [getMetrics(name)]; [None] is [null]. *)
Definition getMetrics (name : string) (pm : PerformanceMonitor) : option MetricStats.t :=
  match jsmap_get (metrics pm) name with
  | None | Some [] => None
  | Some ((v :: rest) as values) =>
      let total := fold_left Qplus values 0%Q in
      let avg := (total / inject_Z (Z.of_nat (length values)))%Q in
      Some {| MetricStats.count := length values; MetricStats.avg := avg;
              MetricStats.min := math_min v rest; MetricStats.max := math_max v rest;
              MetricStats.total := total |}
  end.



(** [reset()] *)
Definition reset (pm : PerformanceMonitor) : PerformanceMonitor :=
  {| metrics := []; timers := [] |}.

(** A sequence of calls on one monitor; a throwing [endTimer] changes
    nothing (it throws before any mutation). *)
Inductive PerfOp : Type :=
| PStart (now : Q) (name : string)
| PEnd (now : Q) (name : string)
| PReset.

Definition perf_step (pm : PerformanceMonitor) (op : PerfOp) : PerformanceMonitor :=
  match op with
  | PStart now name => startTimer now name pm
  | PEnd now name => match endTimer now name pm with Some (_, pm') => pm' | None => pm end
  | PReset => reset pm
  end.

Definition perf_exec (ops : list PerfOp) : PerformanceMonitor :=
  fold_left perf_step ops new_PerformanceMonitor.

Definition perf_reachable (pm : PerformanceMonitor) : Prop := exists ops, pm = perf_exec ops.

Section JsMapFacts.
Context {V : Type}.
Implicit Types (m : list (string * V)) (k : string) (v : V).

Lemma jsmap_get_set_eq m k v : jsmap_get (jsmap_set m k v) k = Some v.
Proof.
  induction m as [|[k' v'] m IH]; simpl; [rewrite String.eqb_refl; reflexivity|].
  destruct (String.eqb k' k) eqn:E; simpl; [rewrite String.eqb_refl; reflexivity|rewrite E; exact IH].
Qed.

Lemma jsmap_get_set_ne m k k' v : k <> k' -> jsmap_get (jsmap_set m k v) k' = jsmap_get m k'.
Proof.
  intros Hne. assert (E0 : String.eqb k k' = false) by (apply String.eqb_neq; exact Hne).
  induction m as [|[k0 v0] m IH]; simpl; [rewrite E0; reflexivity|].
  destruct (String.eqb k0 k) eqn:E; simpl.
  - apply String.eqb_eq in E. subst k0. rewrite E0. reflexivity.
  - destruct (String.eqb k0 k'); [reflexivity|exact IH].
Qed.

Lemma jsmap_get_delete_ne m k k' : k <> k' -> jsmap_get (jsmap_delete m k) k' = jsmap_get m k'.
Proof.
  intros Hne. induction m as [|[k0 v0] m IH]; simpl; [reflexivity|].
  destruct (String.eqb k0 k) eqn:E; simpl.
  - apply String.eqb_eq in E. subst k0.
    assert (E0 : String.eqb k k' = false) by (apply String.eqb_neq; exact Hne). rewrite E0. reflexivity.
  - destruct (String.eqb k0 k'); [reflexivity|exact IH].
Qed.

Lemma jsmap_get_None m k : jsmap_get m k = None <-> ~ In k (map fst m).
Proof.
  induction m as [|[k0 v0] m IH]; simpl; [tauto|].
  destruct (String.eqb k0 k) eqn:E.
  - apply String.eqb_eq in E. split; [discriminate|]. intros H. exfalso. exact (H (or_introl E)).
  - apply String.eqb_neq in E. rewrite IH. tauto.
Qed.

Lemma jsmap_get_delete_eq m k : List.NoDup (map fst m) -> jsmap_get (jsmap_delete m k) k = None.
Proof.
  induction m as [|[k0 v0] m IH]; simpl; intros Hnd; [reflexivity|].
  inversion Hnd as [|? ? Hnin Hnd']; subst.
  destruct (String.eqb k0 k) eqn:E.
  - apply String.eqb_eq in E. subst k0. apply jsmap_get_None. exact Hnin.
  - simpl. rewrite E. exact (IH Hnd').
Qed.

Lemma jsmap_set_keys m k v x : In x (map fst (jsmap_set m k v)) -> x = k \/ In x (map fst m).
Proof.
  induction m as [|[k0 v0] m IH]; simpl; [intros [H|[]]; left; congruence|].
  destruct (String.eqb k0 k) eqn:E; simpl.
  - apply String.eqb_eq in E. subst k0. tauto.
  - intros [H|H]; [tauto|]. destruct (IH H); tauto.
Qed.

Lemma jsmap_set_NoDup m k v : List.NoDup (map fst m) -> List.NoDup (map fst (jsmap_set m k v)).
Proof.
  induction m as [|[k0 v0] m IH]; simpl; intros Hnd.
  - constructor; [intros []|constructor].
  - inversion Hnd as [|? ? Hnin Hnd']; subst.
    destruct (String.eqb k0 k) eqn:E; simpl.
    + apply String.eqb_eq in E. subst k0. constructor; assumption.
    + apply String.eqb_neq in E. constructor; [|exact (IH Hnd')].
      intros Hin. destruct (jsmap_set_keys m k v k0 Hin); [congruence|contradiction].
Qed.

Lemma jsmap_delete_keys m k x : In x (map fst (jsmap_delete m k)) -> In x (map fst m).
Proof.
  induction m as [|[k0 v0] m IH]; simpl; [tauto|].
  destruct (String.eqb k0 k); simpl; [tauto|]. intros [H|H]; [tauto|right; exact (IH H)].
Qed.

Lemma jsmap_delete_NoDup m k : List.NoDup (map fst m) -> List.NoDup (map fst (jsmap_delete m k)).
Proof.
  induction m as [|[k0 v0] m IH]; simpl; intros Hnd; [constructor|].
  inversion Hnd as [|? ? Hnin Hnd']; subst.
  destruct (String.eqb k0 k); simpl; [exact Hnd'|].
  constructor; [|exact (IH Hnd')]. intros Hin. exact (Hnin (jsmap_delete_keys m k k0 Hin)).
Qed.

End JsMapFacts.

(** The result of a successful [endTimer]. *)
Lemma endTimer_spec (now : Q) (name : string) (pm : PerformanceMonitor) (st : Q) :
  jsmap_get (timers pm) name = Some st -> Qeq_bool st 0 = false ->
  exists pm', endTimer now name pm = Some ((now - st)%Q, pm') /\
    timers pm' = jsmap_delete (timers pm) name /\
    forall k, jsmap_get (metrics pm') k =
      if String.eqb k name
      then Some (match jsmap_get (metrics pm) name with Some vs => vs | None => [] end ++ [(now - st)%Q])
      else jsmap_get (metrics pm) k.
Proof.
  intros Ht Hst. unfold endTimer. cbv zeta. rewrite Ht. cbn [js_falsy_time]. rewrite Hst.
  unfold jsmap_has. destruct (jsmap_get (metrics pm) name) as [vs|] eqn:Em.
  - rewrite Em. eexists. split; [reflexivity|]. split; [reflexivity|]. intros k. simpl.
    destruct (String.eqb k name) eqn:Ek.
    + apply String.eqb_eq in Ek. subst k. apply jsmap_get_set_eq.
    + apply String.eqb_neq in Ek. apply jsmap_get_set_ne. congruence.
  - rewrite jsmap_get_set_eq. eexists. split; [reflexivity|]. split; [reflexivity|]. intros k. simpl.
    destruct (String.eqb k name) eqn:Ek.
    + apply String.eqb_eq in Ek. subst k. apply jsmap_get_set_eq.
    + apply String.eqb_neq in Ek. rewrite !jsmap_get_set_ne by congruence. reflexivity.
Qed.

(** What every reachable monitor satisfies: timer names are unique and
    every recorded metric array is non-empty. *)
Definition perf_ok (pm : PerformanceMonitor) : Prop :=
  List.NoDup (map fst (timers pm)) /\
  forall k vs, jsmap_get (metrics pm) k = Some vs -> vs <> [].

Lemma perf_ok_step (pm : PerformanceMonitor) (op : PerfOp) : perf_ok pm -> perf_ok (perf_step pm op).
Proof.
  intros [Hnd Hne]. destruct op as [now name|now name|]; simpl.
  - split; [apply jsmap_set_NoDup, Hnd|exact Hne].
  - destruct (jsmap_get (timers pm) name) as [st|] eqn:Ht.
    + destruct (Qeq_bool st 0) eqn:Hst.
      * unfold endTimer. cbv zeta. rewrite Ht. cbn [js_falsy_time]. rewrite Hst. split; assumption.
      * destruct (endTimer_spec now name pm st Ht Hst) as (pm' & E & Et & Em). rewrite E.
        split; [rewrite Et; apply jsmap_delete_NoDup, Hnd|].
        intros k vs. rewrite Em. destruct (String.eqb k name).
        -- intros H. injection H as <-. destruct (_ ++ _) eqn:Ea; [|discriminate].
           apply app_eq_nil in Ea. destruct Ea; discriminate.
        -- apply Hne.
    + unfold endTimer. cbv zeta. rewrite Ht. split; assumption.
  - split; [constructor|intros k vs H; discriminate].
Qed.

Lemma perf_reachable_ok (pm : PerformanceMonitor) : perf_reachable pm -> perf_ok pm.
Proof.
  intros [ops ->]. unfold perf_exec.
  assert (H0 : perf_ok new_PerformanceMonitor) by (split; [constructor|intros k vs H; discriminate]).
  revert H0. generalize new_PerformanceMonitor. induction ops as [|op ops IH]; simpl; intros p Hp.
  - exact Hp.
  - apply IH, perf_ok_step, Hp.
Qed.

Lemma math_min_spec (rest : list Q) : forall m,
  (math_min m rest = m \/ In (math_min m rest) rest) /\ (math_min m rest <= m)%Q /\
  Forall (fun x => math_min m rest <= x)%Q rest.
Proof.
  unfold math_min. induction rest as [|x rest IH]; intros m; simpl.
  - split; [left; reflexivity|]. split; [apply Qle_refl|constructor].
  - destruct (Qlt_le_dec x m) as [Hx|Hx]; [destruct (IH x) as (H1 & H2 & H3)|destruct (IH m) as (H1 & H2 & H3)].
    + split; [destruct H1 as [->|H1]; [right; left; reflexivity|right; right; exact H1]|].
      split; [apply (Qle_trans _ _ _ H2), Qlt_le_weak, Hx|constructor; assumption].
    + split; [destruct H1 as [->|H1]; [left; reflexivity|right; right; exact H1]|].
      split; [exact H2|constructor; [apply (Qle_trans _ _ _ H2 Hx)|exact H3]].
Qed.

Lemma math_max_spec (rest : list Q) : forall m,
  (math_max m rest = m \/ In (math_max m rest) rest) /\ (m <= math_max m rest)%Q /\
  Forall (fun x => x <= math_max m rest)%Q rest.
Proof.
  unfold math_max. induction rest as [|x rest IH]; intros m; simpl.
  - split; [left; reflexivity|]. split; [apply Qle_refl|constructor].
  - destruct (Qlt_le_dec m x) as [Hx|Hx]; [destruct (IH x) as (H1 & H2 & H3)|destruct (IH m) as (H1 & H2 & H3)].
    + split; [destruct H1 as [->|H1]; [right; left; reflexivity|right; right; exact H1]|].
      split; [apply (Qle_trans _ _ _ (Qlt_le_weak _ _ Hx) H2)|constructor; assumption].
    + split; [destruct H1 as [->|H1]; [left; reflexivity|right; right; exact H1]|].
      split; [exact H2|constructor; [apply (Qle_trans _ _ _ Hx H2)|exact H3]].
Qed.


(** X19: [endTimer] throws exactly when no timer of that name is running
    or its start time is 0 ([!startTime] is also true for 0); otherwise it
    returns. A throwing call changes nothing. *)
Theorem endTimer_throws_iff (now : Q) (name : string) (pm : PerformanceMonitor) :
  endTimer now name pm = None <->
  jsmap_get (timers pm) name = None \/
  exists st, jsmap_get (timers pm) name = Some st /\ (st == 0)%Q.
Proof.
  destruct (jsmap_get (timers pm) name) as [st|] eqn:Ht.
  - destruct (Qeq_bool st 0) eqn:Hst.
    + unfold endTimer. cbv zeta. rewrite Ht. cbn [js_falsy_time]. rewrite Hst.
      split; [intros _; right; exists st; split; [reflexivity|apply Qeq_bool_iff, Hst]|reflexivity].
    + destruct (endTimer_spec now name pm st Ht Hst) as (pm' & E & _). rewrite E.
      split; [discriminate|]. intros [H|(s & Hs & Hz)]; [discriminate|].
      injection Hs as <-. apply Qeq_bool_iff in Hz. congruence.
  - unfold endTimer. cbv zeta. rewrite Ht. split; [intros _; left; reflexivity|reflexivity].
Qed.

(** X20: in a reachable monitor, [startTimer(name)] at time [t0 <> 0]
    then [endTimer(name)] at [t1] returns [t1 - t0] whatever timer of that
    name ran before. Afterwards no timer of that name runs, and the other
    timers are unchanged. The duration is appended to the metric array of
    [name], which is created if needed. The other metrics are unchanged. *)
Theorem startTimer_endTimer (pm : PerformanceMonitor) (name : string) (t0 t1 : Q) :
  perf_reachable pm -> ~ (t0 == 0)%Q ->
  exists pm', endTimer t1 name (startTimer t0 name pm) = Some ((t1 - t0)%Q, pm') /\
    jsmap_get (timers pm') name = None /\
    (forall k, k <> name -> jsmap_get (timers pm') k = jsmap_get (timers pm) k) /\
    jsmap_get (metrics pm') name =
      Some (match jsmap_get (metrics pm) name with Some vs => vs | None => [] end ++ [(t1 - t0)%Q]) /\
    (forall k, k <> name -> jsmap_get (metrics pm') k = jsmap_get (metrics pm) k).
Proof.
  intros Hr H0. destruct (perf_reachable_ok pm Hr) as [Hnd _].
  assert (Hst : Qeq_bool t0 0 = false).
  { destruct (Qeq_bool t0 0) eqn:E; [|reflexivity]. apply Qeq_bool_iff in E. contradiction. }
  destruct (endTimer_spec t1 name (startTimer t0 name pm) t0 (jsmap_get_set_eq _ _ _) Hst)
    as (pm' & E & Et & Em).
  exists pm'. split; [exact E|]. simpl in Em. rewrite Et. simpl.
  split; [apply jsmap_get_delete_eq, jsmap_set_NoDup, Hnd|].
  split; [intros k Hk; rewrite jsmap_get_delete_ne by congruence; apply jsmap_get_set_ne; congruence|].
  split; [rewrite Em, String.eqb_refl; reflexivity|].
  intros k Hk. rewrite Em. apply String.eqb_neq in Hk. rewrite Hk. reflexivity.
Qed.

Lemma startTimer_endTimer_witness :
  exists pm', endTimer 5 "a" (startTimer 2 "a" (perf_exec [PStart 1 "a"; PEnd 3 "a"])) = Some ((5 - 2)%Q, pm') /\
    jsmap_get (timers pm') "a" = None /\
    (forall k, k <> "a" -> jsmap_get (timers pm') k = jsmap_get (timers (perf_exec [PStart 1 "a"; PEnd 3 "a"])) k) /\
    jsmap_get (metrics pm') "a" =
      Some (match jsmap_get (metrics (perf_exec [PStart 1 "a"; PEnd 3 "a"])) "a" with Some vs => vs | None => [] end
            ++ [(5 - 2)%Q]) /\
    (forall k, k <> "a" -> jsmap_get (metrics pm') k = jsmap_get (metrics (perf_exec [PStart 1 "a"; PEnd 3 "a"])) k).
Proof.
  apply startTimer_endTimer; [exists [PStart 1 "a"; PEnd 3 "a"]; reflexivity|].
  unfold Qeq. simpl. lia.
Defined.

Lemma getMetrics_None (pm : PerformanceMonitor) (name : string) :
  perf_reachable pm ->
  (getMetrics name pm = None <-> jsmap_get (metrics pm) name = None).
Proof.
  intros Hr. destruct (perf_reachable_ok pm Hr) as [_ Hne].
  unfold getMetrics. destruct (jsmap_get (metrics pm) name) as [[|v rest]|] eqn:E.
  - exfalso. exact (Hne _ _ E eq_refl).
  - split; discriminate.
  - split; reflexivity.
Qed.

(** X21: in a reachable monitor, [getMetrics(name)] is [null] exactly when
    no duration was ever recorded under [name] (since the last [reset]). *)
Theorem getMetrics_null_iff (pm : PerformanceMonitor) (name : string) :
  perf_reachable pm ->
  (getMetrics name pm = None <-> jsmap_get (metrics pm) name = None).
Proof. exact (getMetrics_None pm name). Qed.

Lemma getMetrics_null_iff_witness :
  getMetrics "b" (perf_exec [PStart 1 "a"; PEnd 3 "a"; PStart 4 "b"]) = None <->
  jsmap_get (metrics (perf_exec [PStart 1 "a"; PEnd 3 "a"; PStart 4 "b"])) "b" = None.
Proof. apply getMetrics_null_iff. exists [PStart 1 "a"; PEnd 3 "a"; PStart 4 "b"]. reflexivity. Defined.

(** X22: the statistics returned by [getMetrics] describe the recorded
    durations: [count] is their number, and [min] and [max] are recorded
    durations that bound all of them. *)
Theorem getMetrics_min_max (pm : PerformanceMonitor) (name : string) (st : MetricStats.t) :
  getMetrics name pm = Some st ->
  exists values, jsmap_get (metrics pm) name = Some values /\
    MetricStats.count st = length values /\
    In (MetricStats.min st) values /\ In (MetricStats.max st) values /\
    Forall (fun x => MetricStats.min st <= x <= MetricStats.max st)%Q values.
Proof.
  unfold getMetrics. destruct (jsmap_get (metrics pm) name) as [[|v rest]|]; try discriminate.
  intros H. injection H as <-. exists (v :: rest). simpl. split; [reflexivity|]. split; [reflexivity|].
  destruct (math_min_spec rest v) as (Hmin1 & Hmin2 & Hmin3).
  destruct (math_max_spec rest v) as (Hmax1 & Hmax2 & Hmax3).
  split; [destruct Hmin1 as [->|H]; [left|right]; auto|].
  split; [destruct Hmax1 as [->|H]; [left|right]; auto|].
  constructor; [split; assumption|].
  apply Forall_forall. intros x Hx. split.
  - exact (proj1 (Forall_forall _ _) Hmin3 x Hx).
  - exact (proj1 (Forall_forall _ _) Hmax3 x Hx).
Qed.

Lemma getMetrics_min_max_witness :
  exists st, getMetrics "a" (perf_exec [PStart 1 "a"; PEnd 3 "a"; PStart 4 "a"; PEnd 5 "a"]) = Some st /\
  exists values, jsmap_get (metrics (perf_exec [PStart 1 "a"; PEnd 3 "a"; PStart 4 "a"; PEnd 5 "a"])) "a"
                   = Some values /\
    MetricStats.count st = length values /\
    In (MetricStats.min st) values /\ In (MetricStats.max st) values /\
    Forall (fun x => MetricStats.min st <= x <= MetricStats.max st)%Q values.
Proof.
  destruct (getMetrics "a" (perf_exec [PStart 1 "a"; PEnd 3 "a"; PStart 4 "a"; PEnd 5 "a"])) as [st|] eqn:E.
  - exists st. split; [reflexivity|]. exact (getMetrics_min_max _ _ _ E).
  - vm_compute in E. discriminate.
Defined.


